(** * A single-producer/single-consumer byte ring buffer

    Shallow embedding of [src/ring_buffer.c] ([ring_push], [ring_pop]) and
    the properties of its sequential behaviour: failure is a no-op, the
    cursor invariants, conservation of occupied and free bytes, the frame
    of each operation and FIFO delivery across wrap-arounds.

    The two cursors are C11 atomics; here every call runs to completion
    before the next one starts, so an atomic load is a field read and an
    atomic store a field update. *)

From Stdlib Require Import ZArith Lia.
From Stdlib.Strings Require Import Byte.
From stdpp Require Import base option list sorting.

Open Scope Z_scope.

(** ** Machine arithmetic *)

(** [#define BUFFER_SIZE 1024] *)
Definition BUFFER_SIZE : Z := 1024.

(** [size_t] is an unsigned 64-bit integer on the LP64 targets the tests are
    built for; its arithmetic wraps modulo [2 ^ 64]. *)
Definition SIZE_BITS : Z := 64.
Definition SIZE_MAX : Z := 2 ^ SIZE_BITS - 1.

Definition size_add (a b : Z) : Z := (a + b) mod 2 ^ SIZE_BITS.
Definition size_sub (a b : Z) : Z := (a - b) mod 2 ^ SIZE_BITS.

(** A value of type [size_t]. *)
Definition is_size (x : Z) : Prop := 0 <= x <= SIZE_MAX.

(** ** The buffer *)

(** [typedef struct { uint8_t data[BUFFER_SIZE]; atomic_size_t head;
    atomic_size_t tail; } ring_buffer_t;]  The field names shadow the list
    functions of the same names, which this development does not use. *)
Record ring_buffer_t : Type := mk_ring {
  data : list byte;
  head : Z;
  tail : Z
}.

(** The array type fixes the length of [data]; a list does not, so it is
    part of the well-formedness of a state. *)
Definition data_ok (rb : ring_buffer_t) : Prop :=
  Z.of_nat (length (data rb)) = BUFFER_SIZE.

(** [init_buffer] of the test drivers: both cursors at 0.  The storage is
    left as a parameter (the drivers zero it). *)
Definition init_buffer (d : list byte) : ring_buffer_t :=
  {| data := d; head := 0; tail := 0 |}.

Definition zero_data : list byte := replicate (Z.to_nat BUFFER_SIZE) x00.

(** ** Memory accesses

    An access outside an array is undefined behaviour in C; the model
    returns [None] for it. *)
Definition load (a : list byte) (i : Z) : option byte :=
  if decide (0 <= i) then a !! Z.to_nat i else None.

Definition store (a : list byte) (i : Z) (b : byte) : option (list byte) :=
  if decide (0 <= i < Z.of_nat (length a)) then Some (<[Z.to_nat i := b]> a) else None.

(** ** [ring_push] *)

(** [(tail - head - 1) & (BUFFER_SIZE - 1)] *)
Definition push_available (h t : Z) : Z :=
  Z.land (size_sub (size_sub t h) 1) (BUFFER_SIZE - 1).

(** [(c + i) & (BUFFER_SIZE - 1)], the index of both copy loops. *)
Definition slot (c i : Z) : Z :=
  Z.land (size_add c i) (BUFFER_SIZE - 1).

(** [for (i = ..; i < len; i++) rb->data[(head + i) & (BUFFER_SIZE - 1)] = src[i];]
    with [n] the number of iterations left, [len - i]. *)
Fixpoint push_loop (n : nat) (i h : Z) (src d : list byte) : option (list byte) :=
  match n with
  | O => Some d
  | S n' =>
      b ← load src i;
      d' ← store d (slot h i) b;
      push_loop n' (i + 1) h src d'
  end.

Definition ring_push (rb : ring_buffer_t) (src : list byte) (len : Z)
  : option (bool * ring_buffer_t) :=
  let h := head rb in
  let t := tail rb in
  let available := push_available h t in
  if len >? available then Some (false, rb)
  else
    d ← push_loop (Z.to_nat len) 0 h src (data rb);
    Some (true, {| data := d;
                   head := Z.land (size_add h len) (BUFFER_SIZE - 1);
                   tail := t |}).

(** ** [ring_pop] *)

(** [(head - tail) & (BUFFER_SIZE - 1)] *)
Definition pop_available (h t : Z) : Z :=
  Z.land (size_sub h t) (BUFFER_SIZE - 1).

(** [for (i = ..; i < len; i++) dst[i] = rb->data[(tail + i) & (BUFFER_SIZE - 1)];] *)
Fixpoint pop_loop (n : nat) (i t : Z) (d dst : list byte) : option (list byte) :=
  match n with
  | O => Some dst
  | S n' =>
      b ← load d (slot t i);
      dst' ← store dst i b;
      pop_loop n' (i + 1) t d dst'
  end.

(** The result carries the destination buffer as the call leaves it. *)
Definition ring_pop (rb : ring_buffer_t) (dst : list byte) (len : Z)
  : option (bool * ring_buffer_t * list byte) :=
  let t := tail rb in
  let h := head rb in
  let available := pop_available h t in
  if len >? available then Some (false, rb, dst)
  else
    dst' ← pop_loop (Z.to_nat len) 0 t (data rb) dst;
    Some (true,
          {| data := data rb;
             head := h;
             tail := Z.land (size_add t len) (BUFFER_SIZE - 1) |},
          dst').

(** ** The quantities of the data model *)

Definition occupied_bytes (rb : ring_buffer_t) : Z :=
  (head rb - tail rb) mod BUFFER_SIZE.

Definition free_bytes (rb : ring_buffer_t) : Z :=
  (tail rb - head rb - 1) mod BUFFER_SIZE.

Definition cursors_ok (rb : ring_buffer_t) : Prop :=
  0 <= head rb < BUFFER_SIZE /\ 0 <= tail rb < BUFFER_SIZE.

Definition rb_inv (rb : ring_buffer_t) : Prop :=
  data_ok rb /\ cursors_ok rb.

(** States reachable from an initialised buffer by calls of the two
    operations, whatever their arguments and whether they succeed or not. *)
Inductive reachable : ring_buffer_t -> Prop :=
| reach_init d :
    Z.of_nat (length d) = BUFFER_SIZE -> reachable (init_buffer d)
| reach_push rb src len ok rb' :
    reachable rb -> is_size len ->
    ring_push rb src len = Some (ok, rb') -> reachable rb'
| reach_pop rb dst len ok rb' dst' :
    reachable rb -> is_size len ->
    ring_pop rb dst len = Some (ok, rb', dst') -> reachable rb'.

(** ** Sequences of calls *)

(** A call of [ring_push] with its source buffer, or of [ring_pop] with its
    destination buffer. *)
Inductive op : Type :=
| Push (src : list byte) (len : Z)
| Pop (dst : list byte) (len : Z).

(** The caller's buffer holds at least [len] bytes. *)
Definition op_sized (o : op) : Prop :=
  match o with
  | Push src len => 0 <= len <= Z.of_nat (length src)
  | Pop dst len => 0 <= len <= Z.of_nat (length dst)
  end.

(** Runs the calls in order.  The result is the final state, the value each
    call returned, and the bytes the successful pops delivered (the first
    [len] bytes of each destination buffer), concatenated. *)
Fixpoint run (rb : ring_buffer_t) (ops : list op)
  : option (ring_buffer_t * list bool * list byte) :=
  match ops with
  | [] => Some (rb, [], [])
  | Push src len :: rest =>
      '(ok, rb') ← ring_push rb src len;
      '(rb'', oks, out) ← run rb' rest;
      Some (rb'', ok :: oks, out)
  | Pop dst len :: rest =>
      '(ok, rb', dst') ← ring_pop rb dst len;
      '(rb'', oks, out) ← run rb' rest;
      Some (rb'', ok :: oks,
            (if ok : bool then take (Z.to_nat len) dst' else []) ++ out)
  end.

(** The bytes handed to the pushes, concatenated. *)
Fixpoint supplied (ops : list op) : list byte :=
  match ops with
  | [] => []
  | Push src len :: rest => take (Z.to_nat len) src ++ supplied rest
  | Pop _ _ :: rest => supplied rest
  end.

(** Every push asks for no more than the free bytes and every pop for no
    more than the occupied bytes, at the time of the call. *)
Fixpoint admissible (rb : ring_buffer_t) (ops : list op) : Prop :=
  match ops with
  | [] => True
  | Push src len :: rest =>
      len <= free_bytes rb /\
      match ring_push rb src len with
      | Some (_, rb') => admissible rb' rest
      | None => True
      end
  | Pop dst len :: rest =>
      len <= occupied_bytes rb /\
      match ring_pop rb dst len with
      | Some (_, rb', _) => admissible rb' rest
      | None => True
      end
  end.

(** [holds rb q]: the occupied part of the storage, read from the tail
    cursor towards the head cursor, is the byte sequence [q]. *)
Definition holds (rb : ring_buffer_t) (q : list byte) : Prop :=
  Z.of_nat (length q) = occupied_bytes rb /\
  forall i : nat, (i < length q)%nat ->
    load (data rb) (slot (tail rb) (Z.of_nat i)) = q !! i.

(** ** Sample states *)

(** A fresh zeroed buffer, and the same buffer after one byte was pushed. *)
Definition fresh : ring_buffer_t := init_buffer zero_data.

Definition one_in : ring_buffer_t :=
  {| data := <[0%nat := x11]> zero_data; head := 1; tail := 0 |}.

(** [one_in] after a second byte was pushed, and [one_in] after its byte
    was popped. *)
Definition two_in : ring_buffer_t :=
  {| data := <[1%nat := x22]> (<[0%nat := x11]> zero_data); head := 2; tail := 0 |}.

Definition one_out : ring_buffer_t :=
  {| data := <[0%nat := x11]> zero_data; head := 1; tail := 1 |}.

(** A buffer whose cursors meet three slots before the end of the storage. *)
Definition near_end : ring_buffer_t :=
  {| data := zero_data; head := 1021; tail := 1021 |}.

(** [two_in] after its first byte was popped. *)
Definition two_in_one_out : ring_buffer_t :=
  {| data := data two_in; head := 2; tail := 1 |}.

(** The calls of the unit test [wraparound_basic]: fill most of the
    buffer, drain it, then move 200 bytes across the end of the storage. *)
Definition wraparound_basic : list op :=
  [ Push (replicate 924 x11) 924;
    Pop (replicate 924 x00) 924;
    Push (replicate 120 xa1 ++ replicate 80 xb2) 200;
    Pop (replicate 200 x00) 200 ].

(** ** The bytes waiting in the storage *)

(** The [n] bytes of the storage from slot [t + i] on, wrapping at the end
    of the array. *)
Fixpoint read_slots (d : list byte) (t i : Z) (n : nat) : list byte :=
  match n with
  | O => []
  | S n' =>
      match load d (slot t i) with
      | Some b => b :: read_slots d t (i + 1) n'
      | None => []
      end
  end.

(** The bytes pushed and not yet popped, oldest first: what the slots from
    the tail cursor up to the head cursor hold. *)
Definition contents (rb : ring_buffer_t) : list byte :=
  read_slots (data rb) (tail rb) 0 (Z.to_nat (occupied_bytes rb)).

(** [n] rounds of the loop body of [bench_single_threaded] and of the unit
    tests [push_pop_sequence], [alternating_push_pop] and
    [small_chunks_wraparound]: push [len] bytes, then pop [len] bytes.  The
    round [k] takes its source from [srcs k]; the results of the calls are
    collected with the destination buffers as the pops leave them. *)
Fixpoint push_pop_rounds (n : nat) (k : nat) (srcs : nat -> list byte)
    (dst : list byte) (len : Z) (rb : ring_buffer_t)
  : option (ring_buffer_t * list (bool * bool * list byte)) :=
  match n with
  | O => Some (rb, [])
  | S n' =>
      '(ok1, rb1) ← ring_push rb (srcs k) len;
      '(ok2, rb2, dst') ← ring_pop rb1 dst len;
      '(rb3, outs) ← push_pop_rounds n' (S k) srcs dst' len rb2;
      Some (rb3, (ok1, ok2, dst') :: outs)
  end.

(** [two_in] after both bytes were popped. *)
Definition two_in_two_out : ring_buffer_t :=
  {| data := data two_in; head := 2; tail := 2 |}.

(** ** The variable-size producer and consumer of [test_integration.c]

    The two thread functions share the buffer and two atomic counters.
    Each is modelled by its turn: the test of its [while] loop followed by
    one iteration of the loop body.  A turn holds one call of [ring_push]
    or [ring_pop]; the turns of the two threads are interleaved by a
    schedule, one whole turn at a time. *)

(** The value of a [uint8_t], and the conversion of an integer to
    [uint8_t], which reduces it modulo 256. *)
Definition byte_val (b : byte) : Z := Z.of_N (Byte.to_N b).

Definition to_uint8 (z : Z) : byte :=
  match Byte.of_N (Z.to_N (z mod 256)) with
  | Some b => b
  | None => x00
  end.

(** [(msg_id % 61) + 4] *)
Definition variable_size (id : Z) : Z := size_add (id mod 61) 4.

(** [for (j = ..; j < size; j++) data[j] = (uint8_t)((msg_id + j) & 0xFF);]
    with [n] the number of iterations left. *)
Fixpoint fill_payload (n : nat) (j msg_id : Z) (d : list byte)
  : option (list byte) :=
  match n with
  | O => Some d
  | S n' =>
      d' ← store d j (to_uint8 (Z.land (size_add msg_id j) 255));
      fill_payload n' (j + 1) msg_id d'
  end.

(** The producer writes the message for [msg_id] into its array: two bytes
    of the id, the size, then the payload. *)
Definition build_variable_message (msg_id : Z) (d : list byte)
  : option (list byte) :=
  let size := variable_size msg_id in
  d0 ← store d 0 (to_uint8 (Z.land msg_id 255));
  d1 ← store d0 1 (to_uint8 (Z.land (Z.shiftr msg_id 8) 255));
  d2 ← store d1 2 (to_uint8 size);
  fill_payload (Z.to_nat (size - 3)) 3 msg_id d2.

(** A thread is running or has returned a value ([NULL] is 0). *)
Inductive thread_status : Type :=
| Running
| Returned (value : Z).

(** The buffer, the two atomic counters, and the locals of the two
    threads: their [data] arrays and message counters. *)
Record spsc_state : Type := mk_spsc {
  ring : ring_buffer_t;
  produced : Z;
  consumed : Z;
  prod_data : list byte;
  msg_id : Z;
  prod_status : thread_status;
  cons_data : list byte;
  expected_id : Z;
  cons_status : thread_status
}.

(** A turn of [producer_variable_size]. *)
Definition producer_variable_size_step (num_messages : Z) (s : spsc_state)
  : option spsc_state :=
  match prod_status s with
  | Returned _ => Some s
  | Running =>
      if msg_id s <? num_messages then
        let size := variable_size (msg_id s) in
        d ← build_variable_message (msg_id s) (prod_data s);
        '(ok, rb') ← ring_push (ring s) d size;
        if ok : bool then
          Some (mk_spsc rb' (size_add (produced s) 1) (consumed s)
                        d (size_add (msg_id s) 1) Running
                        (cons_data s) (expected_id s) (cons_status s))
        else
          Some (mk_spsc rb' (produced s) (consumed s)
                        d (msg_id s) Running
                        (cons_data s) (expected_id s) (cons_status s))
      else
        Some (mk_spsc (ring s) (produced s) (consumed s)
                      (prod_data s) (msg_id s) (Returned 0)
                      (cons_data s) (expected_id s) (cons_status s))
  end.

(** [data[0] | ((size_t)data[1] << 8)] *)
Definition decode_id (b0 b1 : byte) : Z :=
  Z.lor (byte_val b0) (Z.shiftl (byte_val b1) 8).

(** A turn of [consumer_variable_size]. *)
Definition consumer_variable_size_step (num_messages : Z) (s : spsc_state)
  : option spsc_state :=
  match cons_status s with
  | Returned _ => Some s
  | Running =>
      if expected_id s <? num_messages then
        let expected_size := variable_size (expected_id s) in
        '(ok, rb', d) ← ring_pop (ring s) (cons_data s) expected_size;
        if ok : bool then
          b0 ← load d 0;
          b1 ← load d 1;
          let got_id := decode_id b0 b1 in
          if negb (got_id =? expected_id s) then
            Some (mk_spsc rb' (produced s) (consumed s)
                          (prod_data s) (msg_id s) (prod_status s)
                          d (expected_id s) (Returned 1))
          else
            b2 ← load d 2;
            if negb (byte_val b2 =? byte_val (to_uint8 expected_size)) then
              Some (mk_spsc rb' (produced s) (consumed s)
                            (prod_data s) (msg_id s) (prod_status s)
                            d (expected_id s) (Returned 1))
            else
              Some (mk_spsc rb' (produced s) (size_add (consumed s) 1)
                            (prod_data s) (msg_id s) (prod_status s)
                            d (size_add (expected_id s) 1) Running)
        else
          Some (mk_spsc rb' (produced s) (consumed s)
                        (prod_data s) (msg_id s) (prod_status s)
                        d (expected_id s) Running)
      else
        Some (mk_spsc (ring s) (produced s) (consumed s)
                      (prod_data s) (msg_id s) (prod_status s)
                      (cons_data s) (expected_id s) (Returned 0))
  end.

Inductive thread : Type := Producer | Consumer.

Definition spsc_step (num_messages : Z) (t : thread) (s : spsc_state)
  : option spsc_state :=
  match t with
  | Producer => producer_variable_size_step num_messages s
  | Consumer => consumer_variable_size_step num_messages s
  end.

(** The turns of a schedule, in order. *)
Fixpoint spsc_run (num_messages : Z) (sched : list thread) (s : spsc_state)
  : option spsc_state :=
  match sched with
  | [] => Some s
  | t :: rest => s' ← spsc_step num_messages t s; spsc_run num_messages rest s'
  end.

(** The state in which [spsc_variable_size_messages] starts the threads:
    an initialised buffer, counters at 0, the two [data[64]] arrays not
    initialised. *)
Definition spsc_start (d pd cd : list byte) : spsc_state :=
  mk_spsc (init_buffer d) 0 0 pd 0 Running cd 0 Running.

(** What [spsc_variable_size_messages] returns once both threads have been
    joined: 0 when the test passes. *)
Definition spsc_verdict (num_messages : Z) (s : spsc_state) : Z :=
  match cons_status s with
  | Returned 0 =>
      if negb (produced s =? num_messages) then 1
      else if negb (consumed s =? num_messages) then 1
      else 0
  | _ => 1
  end.

(** The schedule that gives the producer and the consumer a turn each,
    [k] times over. *)
Fixpoint round_robin (k : nat) : list thread :=
  match k with
  | O => []
  | S k' => Producer :: Consumer :: round_robin k'
  end.

(** The bytes of the message for [id], as the producer lays them out. *)
Definition variable_message (id : Z) : list byte :=
  [to_uint8 (Z.land id 255);
   to_uint8 (Z.land (Z.shiftr id 8) 255);
   to_uint8 (variable_size id)]
  ++ ((fun k : nat => to_uint8 (Z.land (size_add id (3 + Z.of_nat k)) 255))
        <$> seq 0 (Z.to_nat (variable_size id - 3))).

(** The messages for [n] consecutive ids from [id] on, joined. *)
Fixpoint variable_messages (id : Z) (n : nat) : list byte :=
  match n with
  | O => []
  | S n' => variable_message id ++ variable_messages (id + 1) n'
  end.

(** What holds between the turns of the two threads. *)
Record spsc_inv (num_messages : Z) (s : spsc_state) : Prop := mk_spsc_inv {
  inv_data : data_ok (ring s);
  inv_prod_data : length (prod_data s) = 64%nat;
  inv_cons_data : length (cons_data s) = 64%nat;
  inv_ids : 0 <= expected_id s <= msg_id s /\ msg_id s <= num_messages;
  inv_produced : produced s = msg_id s;
  inv_consumed : consumed s = expected_id s;
  inv_holds :
    holds (ring s)
          (variable_messages (expected_id s)
                             (Z.to_nat (msg_id s - expected_id s)));
  inv_prod_status :
    prod_status s = Running \/
    (prod_status s = Returned 0 /\ msg_id s = num_messages);
  inv_cons_status :
    cons_status s = Running \/
    (cons_status s = Returned 0 /\ expected_id s = num_messages)
}.

(** The turns still to come: messages to push, messages to pop, and the
    final turn of each thread. *)
Definition spsc_left (num_messages : Z) (s : spsc_state) : Z :=
  (num_messages - msg_id s) + (num_messages - expected_id s)
  + (match prod_status s with Running => 1 | Returned _ => 0 end)
  + (match cons_status s with Running => 1 | Returned _ => 0 end).

(** The state after the producer's first turn, from a zeroed buffer and
    zeroed arrays. *)
Definition one_message_state : spsc_state :=
  Eval vm_compute in
    match spsc_run 5 [Producer]
            (spsc_start zero_data (replicate 64 x00) (replicate 64 x00)) with
    | Some s => s
    | None => spsc_start zero_data (replicate 64 x00) (replicate 64 x00)
    end.


(** ** The fixed-size producer and consumer of [test_integration.c]

    [producer_fixed_size] and [consumer_fixed_size], modelled like the
    variable-size pair: a turn of a thread is one attempt of its call.  The
    producer fills its array once per message, before the first attempt;
    [prod_filled] tells that it is in its retry loop. *)
Module Fixed.

Record state : Type := mk_state {
  ring : ring_buffer_t;
  produced : Z;
  consumed : Z;
  prod_data : list byte;
  prod_i : Z;
  prod_filled : bool;
  prod_status : thread_status;
  cons_data : list byte;
  cons_i : Z;
  cons_status : thread_status
}.

(** [for (j = 0; j < message_size; j++) data[j] = (uint8_t)((i + j) & 0xFF);]
    The loop body is the one of the variable-size payload. *)
Definition fill_pattern (i message_size : Z) (d : list byte)
  : option (list byte) :=
  fill_payload (Z.to_nat message_size) 0 i d.

(** [for (j = ..; j < message_size; j++) if (data[j] != (uint8_t)((i + j) & 0xFF)) return 1;]
    with [n] iterations left; [false] stands for the early return. *)
Fixpoint verify_pattern (n : nat) (j i : Z) (d : list byte) : option bool :=
  match n with
  | O => Some true
  | S n' =>
      b ← load d j;
      if negb (byte_val b =? byte_val (to_uint8 (Z.land (size_add i j) 255)))
      then Some false
      else verify_pattern n' (j + 1) i d
  end.

(** One attempt of the producer's retry loop
    [while (!ring_push(args->rb, data, args->message_size)) sched_yield();]
    with the counter update that follows the loop. *)
Definition producer_attempt (message_size : Z) (s : state) (d : list byte)
  : option state :=
  '(ok, rb') ← ring_push (ring s) d message_size;
  if ok : bool then
    Some (mk_state rb' (size_add (produced s) 1) (consumed s)
                   d (size_add (prod_i s) 1) false Running
                   (cons_data s) (cons_i s) (cons_status s))
  else
    Some (mk_state rb' (produced s) (consumed s)
                   d (prod_i s) true Running
                   (cons_data s) (cons_i s) (cons_status s)).

(** A turn of [producer_fixed_size]. *)
Definition producer_fixed_size_step (num_messages message_size : Z) (s : state)
  : option state :=
  match prod_status s with
  | Returned _ => Some s
  | Running =>
      if prod_filled s then producer_attempt message_size s (prod_data s)
      else if prod_i s <? num_messages then
        d ← fill_pattern (prod_i s) message_size (prod_data s);
        producer_attempt message_size s d
      else
        Some (mk_state (ring s) (produced s) (consumed s)
                       (prod_data s) (prod_i s) false (Returned 0)
                       (cons_data s) (cons_i s) (cons_status s))
  end.

(** A turn of [consumer_fixed_size]. *)
Definition consumer_fixed_size_step (num_messages message_size : Z) (s : state)
  : option state :=
  match cons_status s with
  | Returned _ => Some s
  | Running =>
      if cons_i s <? num_messages then
        '(ok, rb', d) ← ring_pop (ring s) (cons_data s) message_size;
        if ok : bool then
          good ← verify_pattern (Z.to_nat message_size) 0 (cons_i s) d;
          if good : bool then
            Some (mk_state rb' (produced s) (size_add (consumed s) 1)
                           (prod_data s) (prod_i s) (prod_filled s)
                           (prod_status s)
                           d (size_add (cons_i s) 1) Running)
          else
            Some (mk_state rb' (produced s) (consumed s)
                           (prod_data s) (prod_i s) (prod_filled s)
                           (prod_status s)
                           d (cons_i s) (Returned 1))
        else
          Some (mk_state rb' (produced s) (consumed s)
                         (prod_data s) (prod_i s) (prod_filled s)
                         (prod_status s)
                         d (cons_i s) Running)
      else
        Some (mk_state (ring s) (produced s) (consumed s)
                       (prod_data s) (prod_i s) (prod_filled s)
                       (prod_status s)
                       (cons_data s) (cons_i s) (Returned 0))
  end.

Definition step (num_messages message_size : Z) (t : thread) (s : state)
  : option state :=
  match t with
  | Producer => producer_fixed_size_step num_messages message_size s
  | Consumer => consumer_fixed_size_step num_messages message_size s
  end.

Fixpoint run (num_messages message_size : Z) (sched : list thread) (s : state)
  : option state :=
  match sched with
  | [] => Some s
  | t :: rest =>
      s' ← step num_messages message_size t s;
      run num_messages message_size rest s'
  end.

(** The state in which the tests [spsc_small_messages],
    [spsc_large_messages] and [spsc_single_byte_messages] start the
    threads; [pd] and [cd] are the arrays the threads allocate. *)
Definition start (d pd cd : list byte) : state :=
  mk_state (init_buffer d) 0 0 pd 0 false Running cd 0 Running.

(** What these tests return once both threads have been joined. *)
Definition verdict (num_messages : Z) (s : state) : Z :=
  match cons_status s with
  | Returned 0 =>
      if negb (produced s =? num_messages) then 1
      else if negb (consumed s =? num_messages) then 1
      else 0
  | _ => 1
  end.

(** The bytes of the message number [i]. *)
Definition pattern_message (i message_size : Z) : list byte :=
  (fun k : nat => to_uint8 (Z.land (size_add i (Z.of_nat k)) 255))
    <$> seq 0 (Z.to_nat message_size).

(** The messages number [i] to [i + n - 1], joined. *)
Fixpoint pattern_messages (i : Z) (n : nat) (message_size : Z) : list byte :=
  match n with
  | O => []
  | S n' =>
      pattern_message i message_size
      ++ pattern_messages (i + 1) n' message_size
  end.

(** What holds between the turns of the two threads. *)
Record inv (num_messages message_size : Z) (s : state) : Prop := mk_inv {
  inv_data : data_ok (ring s);
  inv_prod_data : Z.of_nat (length (prod_data s)) = message_size;
  inv_cons_data : Z.of_nat (length (cons_data s)) = message_size;
  inv_ids : 0 <= cons_i s <= prod_i s /\ prod_i s <= num_messages;
  inv_produced : produced s = prod_i s;
  inv_consumed : consumed s = cons_i s;
  inv_holds :
    holds (ring s)
          (pattern_messages (cons_i s) (Z.to_nat (prod_i s - cons_i s))
                            message_size);
  inv_filled :
    prod_filled s = true ->
    prod_status s = Running /\ prod_i s < num_messages /\
    prod_data s = pattern_message (prod_i s) message_size;
  inv_prod_status :
    prod_status s = Running \/
    (prod_status s = Returned 0 /\ prod_i s = num_messages);
  inv_cons_status :
    cons_status s = Running \/
    (cons_status s = Returned 0 /\ cons_i s = num_messages)
}.

(** The turns still to come. *)
Definition left (num_messages : Z) (s : state) : Z :=
  (num_messages - prod_i s) + (num_messages - cons_i s)
  + (match prod_status s with Running => 1 | Returned _ => 0 end)
  + (match cons_status s with Running => 1 | Returned _ => 0 end).

End Fixed.

(** The state after the first two turns of the fixed-size threads, with 4
    messages of 8 bytes to send, from a zeroed buffer and zeroed arrays. *)
Definition fixed_sample_state : Fixed.state :=
  Eval vm_compute in
    match Fixed.run 4 8 [Producer; Consumer]
            (Fixed.start zero_data (replicate 8 x00) (replicate 8 x00)) with
    | Some s => s
    | None => Fixed.start zero_data (replicate 8 x00) (replicate 8 x00)
    end.

(** ** The latency statistics of [test_bench.c] *)

(** [return (ua > ub) - (ua < ub);] on two [uint64_t] values. *)
Definition compare_uint64 (ua ub : Z) : Z :=
  Z.b2z (ua >? ub) - Z.b2z (ua <? ub).

(** The order [qsort] sorts by: [a] may come before [b] when the
    comparator does not return a positive value. *)
Definition qsort_le (a b : Z) : Prop := compare_uint64 a b <= 0.

#[global] Instance qsort_le_dec (a b : Z) : Decision (qsort_le a b) :=
  Z_le_dec (compare_uint64 a b) 0.

(** [qsort(latencies, num_samples, sizeof(uint64_t), compare_uint64)].
    [qsort] is the C library's; a sort by the comparator stands for it
    (the sorted arrangement of numbers is unique). *)
Definition qsort_uint64 (l : list Z) : list Z := merge_sort qsort_le l.

(** Reading element [i] of an array of [uint64_t]. *)
Definition load64 (a : list Z) (i : Z) : option Z :=
  if decide (0 <= i) then a !! Z.to_nat i else None.

Definition size_mul (a b : Z) : Z := (a * b) mod 2 ^ SIZE_BITS.

(** [for (i = ..; i < num_samples; i++) latencies[i] = recv_times[i] - send_times[i];]
    The array is filled from index [i] upwards; [n] iterations are left. *)
Fixpoint latency_loop (n : nat) (i : Z) (recv_times send_times : list Z)
  : option (list Z) :=
  match n with
  | O => Some []
  | S n' =>
      r ← load64 recv_times i;
      s ← load64 send_times i;
      rest ← latency_loop n' (i + 1) recv_times send_times;
      Some ((r - s) mod 2 ^ 64 :: rest)
  end.

Record latency_report : Type := mk_report {
  lat_min : Z; lat_p50 : Z; lat_p90 : Z; lat_p99 : Z; lat_p999 : Z;
  lat_max : Z
}.

(** The integer part of [bench_latency] after the threads are joined: the
    latencies, their sort, and the six order statistics it prints. *)
Definition bench_latency_report
    (recv_times send_times : list Z) (num_samples : Z)
  : option latency_report :=
  latencies ← latency_loop (Z.to_nat num_samples) 0 recv_times send_times;
  let sorted := qsort_uint64 latencies in
  vmin ← load64 sorted 0;
  p50 ← load64 sorted (num_samples / 2);
  p90 ← load64 sorted (size_mul num_samples 90 / 100);
  p99 ← load64 sorted (size_mul num_samples 99 / 100);
  p999 ← load64 sorted (size_mul num_samples 999 / 1000);
  vmax ← load64 sorted (size_sub num_samples 1);
  Some (mk_report vmin p50 p90 p99 p999 vmax).

(** ** Masking is reduction modulo [BUFFER_SIZE] *)

(** Closes goals of cursor arithmetic: [mod BUFFER_SIZE] is replaced by its
    quotient and remainder equations, which are linear. *)
Ltac mod_arith :=
  unfold BUFFER_SIZE in *; Z.to_euclidean_division_equations; lia.


Lemma mask_mod (x : Z) :
  Z.land (x mod 2 ^ SIZE_BITS) (BUFFER_SIZE - 1) = x mod BUFFER_SIZE.
Proof.
  change (BUFFER_SIZE - 1) with (Z.ones 10).
  rewrite Z.land_ones by lia.
  change (2 ^ 10) with BUFFER_SIZE.
  apply Z.mod_mod_divide.
  exists (2 ^ 54). reflexivity.
Qed.

Lemma slot_mod (c i : Z) : slot c i = (c + i) mod BUFFER_SIZE.
Proof. apply mask_mod. Qed.

Lemma push_available_mod (h t : Z) :
  push_available h t = (t - h - 1) mod BUFFER_SIZE.
Proof.
  unfold push_available, size_sub.
  rewrite mask_mod.
  rewrite <- Zminus_mod_idemp_l.
  rewrite Z.mod_mod_divide by (exists (2 ^ 54); reflexivity).
  rewrite Zminus_mod_idemp_l. reflexivity.
Qed.

Lemma pop_available_mod (h t : Z) :
  pop_available h t = (h - t) mod BUFFER_SIZE.
Proof. apply mask_mod. Qed.

Lemma slot_range (c i : Z) : 0 <= slot c i < BUFFER_SIZE.
Proof. rewrite slot_mod. apply Z.mod_pos_bound. reflexivity. Qed.

Lemma push_available_range (h t : Z) : 0 <= push_available h t <= BUFFER_SIZE - 1.
Proof.
  rewrite push_available_mod.
  pose proof (Z.mod_pos_bound (t - h - 1) BUFFER_SIZE eq_refl). lia.
Qed.

Lemma pop_available_range (h t : Z) : 0 <= pop_available h t <= BUFFER_SIZE - 1.
Proof.
  rewrite pop_available_mod.
  pose proof (Z.mod_pos_bound (h - t) BUFFER_SIZE eq_refl). lia.
Qed.

(** ** Loads and stores *)

Lemma load_lookup (a : list byte) (i : nat) : load a (Z.of_nat i) = a !! i.
Proof.
  unfold load. destruct (decide (0 <= Z.of_nat i)); [|lia].
  by rewrite Nat2Z.id.
Qed.

Lemma load_Some_lt (a : list byte) (i : Z) :
  0 <= i < Z.of_nat (length a) -> exists b, load a i = Some b.
Proof.
  intros Hi. unfold load. destruct (decide (0 <= i)); [|lia].
  destruct (lookup_lt_is_Some_2 a (Z.to_nat i)) as [b Hb]; [lia|]. eauto.
Qed.

Lemma store_length (a a' : list byte) (i : Z) (b : byte) :
  store a i b = Some a' -> length a' = length a.
Proof.
  unfold store. destruct (decide _); [|done].
  intros [= <-]. apply length_insert.
Qed.

Lemma load_store_eq (a a' : list byte) (i : Z) (b : byte) :
  store a i b = Some a' -> load a' i = Some b.
Proof.
  unfold store, load. destruct (decide (0 <= i < _)) as [Hi|]; [|done].
  intros [= <-]. destruct (decide (0 <= i)); [|lia].
  apply list_lookup_insert_eq. lia.
Qed.

Lemma load_store_ne (a a' : list byte) (i k : Z) (b : byte) :
  store a i b = Some a' -> k <> i -> load a' k = load a k.
Proof.
  unfold store, load. destruct (decide (0 <= i < _)) as [Hi|]; [|done].
  intros [= <-] Hne. destruct (decide (0 <= k)); [|done].
  apply list_lookup_insert_ne. lia.
Qed.

Lemma store_Some_lt (a : list byte) (i : Z) (b : byte) :
  0 <= i < Z.of_nat (length a) -> exists a', store a i b = Some a'.
Proof.
  intros Hi. unfold store. destruct (decide _); [eauto|lia].
Qed.

(** Two lists that load the same everywhere are the same list. *)
Lemma load_ext (a a' : list byte) :
  (forall k, load a' k = load a k) -> a' = a.
Proof.
  intros H. apply list_eq. intros i. rewrite <- !load_lookup. apply H.
Qed.

(** The slots visited by fewer than [BUFFER_SIZE] consecutive steps are
    pairwise distinct. *)
Lemma slot_inj (c i j : Z) :
  i <= j < i + BUFFER_SIZE -> slot c i = slot c j -> i = j.
Proof.
  rewrite !slot_mod. intros Hij Heq. mod_arith.
Qed.

(** ** The copy loops *)

Section Loops.
Variables (h t : Z).

(** The push loop terminates normally when the source has the bytes; it
    writes [src[j]] to slot [h + j] and touches no other slot. *)
Lemma push_loop_spec (n : nat) :
  forall (i : Z) (src d : list byte),
    0 <= i -> i + Z.of_nat n <= Z.of_nat (length src) ->
    Z.of_nat (length d) = BUFFER_SIZE -> Z.of_nat n <= BUFFER_SIZE ->
    exists d',
      push_loop n i h src d = Some d' /\
      length d' = length d /\
      (forall j, i <= j < i + Z.of_nat n -> load d' (slot h j) = load src j) /\
      (forall k, (forall j, i <= j < i + Z.of_nat n -> k <> slot h j) ->
                 load d' k = load d k).
Proof.
  induction n as [|m IH]; intros i src d Hi Hsrc Hd Hn.
  - exists d. repeat split; try done. intros j Hj. lia.
  - destruct (load_Some_lt src i) as [b Hb]; [lia|].
    destruct (store_Some_lt d (slot h i) b) as [d1 Hd1].
    { pose proof (slot_range h i). lia. }
    pose proof (store_length _ _ _ _ Hd1) as Hlen1.
    destruct (IH (i + 1) src d1) as (d' & Hrun & Hlen & Hwr & Hfr); [lia..|].
    exists d'. simpl. rewrite Hb. simpl. rewrite Hd1. simpl.
    split; [done|]. split; [congruence|]. split.
    + intros j Hj. destruct (decide (j = i)) as [->|Hne].
      * rewrite Hfr.
        -- rewrite Hb. eapply load_store_eq, Hd1.
        -- intros j Hj' Heq. apply slot_inj in Heq; lia.
      * apply Hwr. lia.
    + intros k Hk. rewrite Hfr.
      * eapply load_store_ne; [exact Hd1|]. apply Hk. lia.
      * intros j Hj. apply Hk. lia.
Qed.

(** The pop loop terminates normally when the destination has the room;
    it copies slot [t + j] to [dst[j]] and touches no other byte of the
    destination. *)
Lemma pop_loop_spec (n : nat) :
  forall (i : Z) (d dst : list byte),
    0 <= i -> i + Z.of_nat n <= Z.of_nat (length dst) ->
    Z.of_nat (length d) = BUFFER_SIZE ->
    exists dst',
      pop_loop n i t d dst = Some dst' /\
      length dst' = length dst /\
      (forall j, i <= j < i + Z.of_nat n -> load dst' j = load d (slot t j)) /\
      (forall k, ~ (i <= k < i + Z.of_nat n) -> load dst' k = load dst k).
Proof.
  induction n as [|m IH]; intros i d dst Hi Hdst Hd.
  - exists dst. repeat split; try done. intros j Hj. lia.
  - destruct (load_Some_lt d (slot t i)) as [b Hb].
    { pose proof (slot_range t i). lia. }
    destruct (store_Some_lt dst i b) as [dst1 Hdst1]; [lia|].
    pose proof (store_length _ _ _ _ Hdst1) as Hlen1.
    destruct (IH (i + 1) d dst1) as (dst' & Hrun & Hlen & Hwr & Hfr); [lia..|].
    exists dst'. simpl. rewrite Hb. simpl. rewrite Hdst1. simpl.
    split; [done|]. split; [congruence|]. split.
    + intros j Hj. destruct (decide (j = i)) as [->|Hne].
      * rewrite Hfr by lia. rewrite Hb. eapply load_store_eq, Hdst1.
      * apply Hwr. lia.
    + intros k Hk. rewrite Hfr by lia.
      eapply load_store_ne; [exact Hdst1|lia].
Qed.

(** A loop that runs no iteration leaves its target as it is. *)
Lemma push_loop_0 (i : Z) (src d : list byte) : push_loop 0 i h src d = Some d.
Proof. reflexivity. Qed.

Lemma pop_loop_0 (i : Z) (d dst : list byte) : pop_loop 0 i t d dst = Some dst.
Proof. reflexivity. Qed.
End Loops.

(** A loop that ran to its end found every byte it asked for. *)
Lemma push_loop_src (n : nat) :
  forall (i h : Z) (src d d' : list byte),
    0 <= i <= Z.of_nat (length src) ->
    push_loop n i h src d = Some d' ->
    i + Z.of_nat n <= Z.of_nat (length src).
Proof.
  induction n as [|m IH]; intros i h src d d' Hi Hrun; [lia|].
  simpl in Hrun.
  destruct (load src i) as [b|] eqn:Hb; [|done]. simpl in Hrun.
  destruct (store d (slot h i) b) as [d1|] eqn:Hd1; [|done]. simpl in Hrun.
  unfold load in Hb. destruct (decide (0 <= i)); [|done].
  apply lookup_lt_Some in Hb.
  apply IH in Hrun; lia.
Qed.

Lemma pop_loop_dst (n : nat) :
  forall (i t : Z) (d dst dst' : list byte),
    0 <= i <= Z.of_nat (length dst) ->
    pop_loop n i t d dst = Some dst' ->
    i + Z.of_nat n <= Z.of_nat (length dst).
Proof.
  induction n as [|m IH]; intros i t d dst dst' Hi Hrun; [lia|].
  simpl in Hrun.
  destruct (load d (slot t i)) as [b|] eqn:Hb; [|done]. simpl in Hrun.
  destruct (store dst i b) as [dst1|] eqn:Hd1; [|done]. simpl in Hrun.
  pose proof (store_length _ _ _ _ Hd1) as Hlen.
  unfold store in Hd1. destruct (decide (0 <= i < _)); [|done].
  apply IH in Hrun; lia.
Qed.

(** ** The two operations, case by case *)

Lemma ring_push_fail (rb : ring_buffer_t) (src : list byte) (len : Z) :
  len > push_available (head rb) (tail rb) ->
  ring_push rb src len = Some (false, rb).
Proof.
  intros H. unfold ring_push.
  destruct (Z.gtb_spec len (push_available (head rb) (tail rb))); [done|lia].
Qed.

Lemma ring_pop_fail (rb : ring_buffer_t) (dst : list byte) (len : Z) :
  len > pop_available (head rb) (tail rb) ->
  ring_pop rb dst len = Some (false, rb, dst).
Proof.
  intros H. unfold ring_pop.
  destruct (Z.gtb_spec len (pop_available (head rb) (tail rb))); [done|lia].
Qed.

Lemma ring_push_false (rb rb' : ring_buffer_t) (src : list byte) (len : Z) :
  ring_push rb src len = Some (false, rb') ->
  rb' = rb /\ len > push_available (head rb) (tail rb).
Proof.
  unfold ring_push.
  destruct (Z.gtb_spec len (push_available (head rb) (tail rb))).
  - intros [= <-]. split; [done|lia].
  - destruct (push_loop _ _ _ _ _); simpl; intros [=].
Qed.

Lemma ring_pop_false (rb rb' : ring_buffer_t) (dst dst' : list byte) (len : Z) :
  ring_pop rb dst len = Some (false, rb', dst') ->
  rb' = rb /\ dst' = dst /\ len > pop_available (head rb) (tail rb).
Proof.
  unfold ring_pop.
  destruct (Z.gtb_spec len (pop_available (head rb) (tail rb))).
  - intros [= <- <-]. repeat split; [done..|lia].
  - destruct (pop_loop _ _ _ _ _); simpl; intros [=].
Qed.

Lemma ring_push_true (rb rb' : ring_buffer_t) (src : list byte) (len : Z) :
  data_ok rb -> 0 <= len ->
  ring_push rb src len = Some (true, rb') ->
  len <= push_available (head rb) (tail rb) /\
  len <= Z.of_nat (length src) /\
  tail rb' = tail rb /\
  head rb' = (head rb + len) mod BUFFER_SIZE /\
  length (data rb') = length (data rb) /\
  (forall j, 0 <= j < len ->
             load (data rb') (slot (head rb) j) = load src j) /\
  (forall k, (forall j, 0 <= j < len -> k <> slot (head rb) j) ->
             load (data rb') k = load (data rb) k).
Proof.
  unfold data_ok. intros Hd Hlen. unfold ring_push.
  destruct (Z.gtb_spec len (push_available (head rb) (tail rb))) as [|Hav];
    [done|].
  destruct (push_loop _ _ _ _ _) as [d'|] eqn:Hrun; simpl; [|done].
  intros [= <-]. simpl.
  pose proof (push_available_range (head rb) (tail rb)) as Hr.
  assert (Hsrc := Hrun). apply push_loop_src in Hsrc; [|lia].
  destruct (push_loop_spec (head rb) (Z.to_nat len) 0 src (data rb))
    as (d2 & Hrun2 & Hl & Hwr & Hfr); [unfold BUFFER_SIZE in *; lia..|].
  rewrite Hrun in Hrun2. injection Hrun2 as <-.
  rewrite Z2Nat.id in * by done.
  repeat split; try done; try lia.
  unfold size_add. apply mask_mod.
Qed.

Lemma ring_pop_true (rb rb' : ring_buffer_t) (dst dst' : list byte) (len : Z) :
  data_ok rb -> 0 <= len ->
  ring_pop rb dst len = Some (true, rb', dst') ->
  len <= pop_available (head rb) (tail rb) /\
  len <= Z.of_nat (length dst) /\
  head rb' = head rb /\
  tail rb' = (tail rb + len) mod BUFFER_SIZE /\
  data rb' = data rb /\
  length dst' = length dst /\
  (forall j, 0 <= j < len ->
             load dst' j = load (data rb) (slot (tail rb) j)) /\
  (forall k, ~ (0 <= k < len) -> load dst' k = load dst k).
Proof.
  unfold data_ok. intros Hd Hlen. unfold ring_pop.
  destruct (Z.gtb_spec len (pop_available (head rb) (tail rb))) as [|Hav];
    [done|].
  destruct (pop_loop _ _ _ _ _) as [d'|] eqn:Hrun; simpl; [|done].
  intros [= <- <-]. simpl.
  assert (Hdst := Hrun). apply pop_loop_dst in Hdst; [|lia].
  destruct (pop_loop_spec (tail rb) (Z.to_nat len) 0 (data rb) dst)
    as (d2 & Hrun2 & Hl & Hwr & Hfr); [lia..|done|].
  rewrite Hrun in Hrun2. injection Hrun2 as <-.
  rewrite Z2Nat.id in * by done.
  repeat split; try done; try lia.
  unfold size_add. apply mask_mod.
Qed.

Lemma ring_push_succeeds (rb : ring_buffer_t) (src : list byte) (len : Z) :
  data_ok rb -> 0 <= len <= Z.of_nat (length src) ->
  len <= push_available (head rb) (tail rb) ->
  exists rb', ring_push rb src len = Some (true, rb').
Proof.
  unfold data_ok. intros Hd Hlen Hav. unfold ring_push.
  destruct (Z.gtb_spec len (push_available (head rb) (tail rb))); [lia|].
  pose proof (push_available_range (head rb) (tail rb)) as Hr.
  destruct (push_loop_spec (head rb) (Z.to_nat len) 0 src (data rb))
    as (d2 & -> & _); [unfold BUFFER_SIZE in *; lia..|].
  simpl. eauto.
Qed.

Lemma ring_pop_succeeds (rb : ring_buffer_t) (dst : list byte) (len : Z) :
  data_ok rb -> 0 <= len <= Z.of_nat (length dst) ->
  len <= pop_available (head rb) (tail rb) ->
  exists rb' dst', ring_pop rb dst len = Some (true, rb', dst').
Proof.
  unfold data_ok. intros Hd Hlen Hav. unfold ring_pop.
  destruct (Z.gtb_spec len (pop_available (head rb) (tail rb))); [lia|].
  destruct (pop_loop_spec (tail rb) (Z.to_nat len) 0 (data rb) dst)
    as (d2 & -> & _); [lia..|done|].
  simpl. eauto.
Qed.

(** ** Invariants *)

Lemma ring_push_inv (rb rb' : ring_buffer_t) (src : list byte) (len : Z) (ok : bool) :
  rb_inv rb -> 0 <= len ->
  ring_push rb src len = Some (ok, rb') -> rb_inv rb'.
Proof.
  intros [Hd Hc] Hlen Hcall. destruct ok.
  - destruct (ring_push_true _ _ _ _ Hd Hlen Hcall)
      as (_ & _ & Ht & Hh & Hl & _).
    unfold rb_inv, data_ok, cursors_ok in *. rewrite Ht, Hh, Hl.
    pose proof (Z.mod_pos_bound (head rb + len) BUFFER_SIZE eq_refl). lia.
  - apply ring_push_false in Hcall as [-> _]. by split.
Qed.

Lemma ring_pop_inv (rb rb' : ring_buffer_t) (dst dst' : list byte) (len : Z) (ok : bool) :
  rb_inv rb -> 0 <= len ->
  ring_pop rb dst len = Some (ok, rb', dst') -> rb_inv rb'.
Proof.
  intros [Hd Hc] Hlen Hcall. destruct ok.
  - destruct (ring_pop_true _ _ _ _ _ Hd Hlen Hcall)
      as (_ & _ & Hh & Ht & Hl & _).
    unfold rb_inv, data_ok, cursors_ok in *. rewrite Ht, Hh, Hl.
    pose proof (Z.mod_pos_bound (tail rb + len) BUFFER_SIZE eq_refl). lia.
  - apply ring_pop_false in Hcall as (-> & _ & _). by split.
Qed.

Lemma init_buffer_inv (d : list byte) :
  Z.of_nat (length d) = BUFFER_SIZE -> rb_inv (init_buffer d).
Proof. intros Hd. split; [exact Hd|]. unfold cursors_ok, BUFFER_SIZE. simpl. lia. Qed.

Lemma reachable_inv (rb : ring_buffer_t) : reachable rb -> rb_inv rb.
Proof.
  induction 1 as [d Hd|rb src len ok rb' _ IH [Hlen _] Hcall
                 |rb dst len ok rb' dst' _ IH [Hlen _] Hcall].
  - by apply init_buffer_inv.
  - eapply ring_push_inv; eauto.
  - eapply ring_pop_inv; eauto.
Qed.

Lemma occupied_range (rb : ring_buffer_t) : 0 <= occupied_bytes rb <= BUFFER_SIZE - 1.
Proof.
  pose proof (Z.mod_pos_bound (head rb - tail rb) BUFFER_SIZE eq_refl).
  unfold occupied_bytes. lia.
Qed.

Lemma free_range (rb : ring_buffer_t) : 0 <= free_bytes rb <= BUFFER_SIZE - 1.
Proof.
  pose proof (Z.mod_pos_bound (tail rb - head rb - 1) BUFFER_SIZE eq_refl).
  unfold free_bytes. lia.
Qed.

Lemma occupied_plus_free (rb : ring_buffer_t) :
  occupied_bytes rb + free_bytes rb = BUFFER_SIZE - 1.
Proof.
  unfold occupied_bytes, free_bytes. mod_arith.
Qed.

Lemma occupied_after_push (rb rb' : ring_buffer_t) (len : Z) :
  0 <= len <= free_bytes rb ->
  head rb' = (head rb + len) mod BUFFER_SIZE -> tail rb' = tail rb ->
  occupied_bytes rb' = occupied_bytes rb + len.
Proof.
  pose proof (occupied_plus_free rb) as Hsum. revert Hsum.
  unfold occupied_bytes, free_bytes.
  intros Hsum Hlen -> ->. mod_arith.
Qed.

Lemma occupied_after_pop (rb rb' : ring_buffer_t) (len : Z) :
  0 <= len <= occupied_bytes rb ->
  tail rb' = (tail rb + len) mod BUFFER_SIZE -> head rb' = head rb ->
  occupied_bytes rb' = occupied_bytes rb - len.
Proof.
  unfold occupied_bytes.
  intros Hlen -> ->. mod_arith.
Qed.

(** A record whose fields are those of [rb] is [rb]. *)
Lemma ring_eta (rb : ring_buffer_t) (d : list byte) (h t : Z) :
  d = data rb -> h = head rb -> t = tail rb -> mk_ring d h t = rb.
Proof. intros -> -> ->. by destruct rb. Qed.

(** ** Failure leaves no trace *)

(** C2.  A call of [ring_push] or [ring_pop] that returns [false] leaves the
    buffer (both cursors and the whole storage) as it was; a failing push
    gives the same result whatever the source buffer holds, so it reads
    none of it, and a failing pop leaves the destination buffer as it was.
    Nothing is transferred in part. *)
Theorem failure_is_noop
    (rb rb' : ring_buffer_t) (buf buf' : list byte) (len : Z) :
  (ring_push rb buf len = Some (false, rb') ->
   rb' = rb /\
   forall other : list byte, ring_push rb other len = Some (false, rb)) /\
  (ring_pop rb buf len = Some (false, rb', buf') ->
   rb' = rb /\ buf' = buf).
Proof.
  split.
  - intros Hcall. apply ring_push_false in Hcall as [-> Hav].
    split; [done|]. intros other. by apply ring_push_fail.
  - intros Hcall. by apply ring_pop_false in Hcall as (-> & -> & _).
Qed.

Lemma failure_is_noop_witness :
  (fresh = fresh /\
   forall other : list byte, ring_push fresh other 2000 = Some (false, fresh)) /\
  (fresh = fresh /\ [x07; x08] = [x07; x08]).
Proof.
  destruct (failure_is_noop fresh fresh [x07; x08] [x07; x08] 2000)
    as [Hpush Hpop].
  split; [apply Hpush|apply Hpop]; vm_compute; reflexivity.
Defined.

(** ** Capacity *)

(** C4.  On a freshly initialised buffer a push of [BUFFER_SIZE] bytes
    fails and a push of [BUFFER_SIZE - 1] bytes succeeds; in the state it
    leaves, every push of one byte or more fails.  Once a pop has taken [k]
    bytes out, a push succeeds exactly when it asks for at most [k]. *)
Theorem capacity_boundary (d src : list byte) :
  Z.of_nat (length d) = BUFFER_SIZE ->
  BUFFER_SIZE - 1 <= Z.of_nat (length src) ->
  ring_push (init_buffer d) src BUFFER_SIZE = Some (false, init_buffer d) /\
  exists full,
    ring_push (init_buffer d) src (BUFFER_SIZE - 1) = Some (true, full) /\
    (forall (src' : list byte) (len : Z),
        1 <= len -> ring_push full src' len = Some (false, full)) /\
    (forall (dst : list byte) (k : Z),
        1 <= k <= BUFFER_SIZE - 1 -> k <= Z.of_nat (length dst) ->
        exists rb2 dst',
          ring_pop full dst k = Some (true, rb2, dst') /\
          forall (src' : list byte) (len : Z),
            0 <= len <= Z.of_nat (length src') ->
            (len <= k <-> exists rb3, ring_push rb2 src' len = Some (true, rb3))).
Proof.
  intros Hd Hsrc.
  pose proof (init_buffer_inv d Hd) as [Hdi _].
  split; [by apply ring_push_fail|].
  destruct (ring_push_succeeds (init_buffer d) src (BUFFER_SIZE - 1))
    as [full Hfull]; [done|unfold BUFFER_SIZE in *; lia|done|].
  exists full. split; [done|].
  destruct (ring_push_true (init_buffer d) full src (BUFFER_SIZE - 1))
    as (_ & _ & Ht & Hh & Hl & _); [done..|].
  change (tail full = 0) in Ht. change (head full = 1023) in Hh.
  assert (data_ok full) as Hdf by (unfold data_ok in *; congruence).
  split.
  - intros src' len Hlen. apply ring_push_fail.
    rewrite Ht, Hh. change (push_available 1023 0) with 0. lia.
  - intros dst k Hk Hdst.
    destruct (ring_pop_succeeds full dst k) as (rb2 & dst' & Hpop);
      [done|lia| |].
    { rewrite Ht, Hh. change (pop_available 1023 0) with 1023.
      unfold BUFFER_SIZE in *. lia. }
    exists rb2, dst'. split; [done|].
    destruct (ring_pop_true full rb2 dst dst' k)
      as (_ & _ & Hh2 & Ht2 & Hl2 & _); [done|lia|done|].
    assert (data_ok rb2) as Hd2 by (unfold data_ok in *; congruence).
    assert (push_available (head rb2) (tail rb2) = k) as Hav.
    { rewrite push_available_mod, Hh2, Ht2, Ht, Hh. mod_arith. }
    intros src' len Hlen. split.
    + intros Hle. apply ring_push_succeeds; [done..|lia].
    + intros [rb3 Hpush].
      destruct (ring_push_true rb2 rb3 src' len) as (Hle & _);
        [done|lia|done|lia].
Qed.

Lemma capacity_boundary_witness :
  ring_push (init_buffer zero_data) (replicate 1023 xaa) BUFFER_SIZE
    = Some (false, init_buffer zero_data) /\
  exists full,
    ring_push (init_buffer zero_data) (replicate 1023 xaa) (BUFFER_SIZE - 1)
      = Some (true, full) /\
    (forall (src' : list byte) (len : Z),
        1 <= len -> ring_push full src' len = Some (false, full)) /\
    (forall (dst : list byte) (k : Z),
        1 <= k <= BUFFER_SIZE - 1 -> k <= Z.of_nat (length dst) ->
        exists rb2 dst',
          ring_pop full dst k = Some (true, rb2, dst') /\
          forall (src' : list byte) (len : Z),
            0 <= len <= Z.of_nat (length src') ->
            (len <= k <-> exists rb3, ring_push rb2 src' len = Some (true, rb3))).
Proof.
  apply (capacity_boundary zero_data (replicate 1023 xaa)).
  - reflexivity.
  - vm_compute. discriminate.
Defined.

(** C5.  A request for more than [BUFFER_SIZE - 1] bytes fails in every
    state, for push and pop alike, and leaves everything as it was.  Its
    result is the very result of any other failing call on that state: a
    caller cannot tell a request that can never succeed from one that only
    has to wait. *)
Theorem oversized_request_fails
    (rb : ring_buffer_t) (buf : list byte) (len : Z) :
  len > BUFFER_SIZE - 1 ->
  ring_push rb buf len = Some (false, rb) /\
  ring_pop rb buf len = Some (false, rb, buf) /\
  (forall (len' : Z) (rb' : ring_buffer_t),
      ring_push rb buf len' = Some (false, rb') ->
      ring_push rb buf len' = ring_push rb buf len) /\
  (forall (len' : Z) (rb' : ring_buffer_t) (buf' : list byte),
      ring_pop rb buf len' = Some (false, rb', buf') ->
      ring_pop rb buf len' = ring_pop rb buf len).
Proof.
  intros Hlen.
  pose proof (push_available_range (head rb) (tail rb)).
  pose proof (pop_available_range (head rb) (tail rb)).
  assert (ring_push rb buf len = Some (false, rb)) as Hpush
    by (apply ring_push_fail; lia).
  assert (ring_pop rb buf len = Some (false, rb, buf)) as Hpop
    by (apply ring_pop_fail; lia).
  repeat split; try done.
  - intros len' rb' Hcall. rewrite Hpush, Hcall.
    by apply ring_push_false in Hcall as [-> _].
  - intros len' rb' buf' Hcall. rewrite Hpop, Hcall.
    by apply ring_pop_false in Hcall as (-> & -> & _).
Qed.

Lemma oversized_request_fails_witness :
  ring_push one_in [x01] 1024 = Some (false, one_in) /\
  ring_pop one_in [x01] 1024 = Some (false, one_in, [x01]) /\
  (forall (len' : Z) (rb' : ring_buffer_t),
      ring_push one_in [x01] len' = Some (false, rb') ->
      ring_push one_in [x01] len' = ring_push one_in [x01] 1024) /\
  (forall (len' : Z) (rb' : ring_buffer_t) (buf' : list byte),
      ring_pop one_in [x01] len' = Some (false, rb', buf') ->
      ring_pop one_in [x01] len' = ring_pop one_in [x01] 1024).
Proof.
  apply (oversized_request_fails one_in [x01] 1024).
  vm_compute. reflexivity.
Defined.

(** ** Zero-length calls and the empty buffer *)

(** C7.  In every state whose cursors are storage indices, a push of zero
    bytes and a pop of zero bytes return [true] and change neither cursor
    nor any byte of the storage or of the caller's buffer; this holds on an
    empty buffer too.  On an empty buffer, where the two cursors are equal,
    a pop of one byte or more fails. *)
Theorem zero_length_calls (rb : ring_buffer_t) (buf : list byte) :
  cursors_ok rb ->
  ring_push rb buf 0 = Some (true, rb) /\
  ring_pop rb buf 0 = Some (true, rb, buf) /\
  (head rb = tail rb ->
   forall len : Z, 1 <= len -> ring_pop rb buf len = Some (false, rb, buf)).
Proof.
  intros [Hh Ht].
  pose proof (push_available_range (head rb) (tail rb)) as Hpa.
  pose proof (pop_available_range (head rb) (tail rb)) as Hoa.
  repeat split.
  - unfold ring_push.
    destruct (Z.gtb_spec 0 (push_available (head rb) (tail rb))); [lia|].
    simpl. do 2 f_equal. apply ring_eta; [done| |done].
    unfold size_add. rewrite mask_mod, Z.add_0_r. by apply Z.mod_small.
  - unfold ring_pop.
    destruct (Z.gtb_spec 0 (pop_available (head rb) (tail rb))); [lia|].
    simpl. do 3 f_equal. apply ring_eta; [done..|].
    unfold size_add. rewrite mask_mod, Z.add_0_r. by apply Z.mod_small.
  - intros Heq len Hlen. apply ring_pop_fail.
    rewrite pop_available_mod, Heq, Z.sub_diag. change (0 mod _) with 0. lia.
Qed.

Lemma zero_length_calls_witness :
  ring_push near_end [x2a] 0 = Some (true, near_end) /\
  ring_pop near_end [x2a] 0 = Some (true, near_end, [x2a]) /\
  (head near_end = tail near_end ->
   forall len : Z, 1 <= len ->
     ring_pop near_end [x2a] len = Some (false, near_end, [x2a])).
Proof.
  apply (zero_length_calls near_end [x2a]).
  unfold cursors_ok, BUFFER_SIZE. simpl. lia.
Defined.

(** ** Cursor invariants *)

(** C8.  In every state reachable from an initialised buffer both cursors
    lie in [0, BUFFER_SIZE - 1], and so do the occupied bytes
    [(head - tail) mod BUFFER_SIZE] and the free bytes
    [(tail - head - 1) mod BUFFER_SIZE]; these are the values the code
    computes as [available] in [ring_pop] and in [ring_push]. *)
Theorem reachable_cursor_bounds (rb : ring_buffer_t) :
  reachable rb ->
  0 <= head rb <= BUFFER_SIZE - 1 /\
  0 <= tail rb <= BUFFER_SIZE - 1 /\
  0 <= occupied_bytes rb <= BUFFER_SIZE - 1 /\
  0 <= free_bytes rb <= BUFFER_SIZE - 1 /\
  pop_available (head rb) (tail rb) = occupied_bytes rb /\
  push_available (head rb) (tail rb) = free_bytes rb.
Proof.
  intros Hr. apply reachable_inv in Hr as [_ [Hh Ht]].
  pose proof (occupied_range rb). pose proof (free_range rb).
  repeat split; try lia.
  - apply pop_available_mod.
  - apply push_available_mod.
Qed.

Lemma reachable_cursor_bounds_witness :
  0 <= head one_in <= BUFFER_SIZE - 1 /\
  0 <= tail one_in <= BUFFER_SIZE - 1 /\
  0 <= occupied_bytes one_in <= BUFFER_SIZE - 1 /\
  0 <= free_bytes one_in <= BUFFER_SIZE - 1 /\
  pop_available (head one_in) (tail one_in) = occupied_bytes one_in /\
  push_available (head one_in) (tail one_in) = free_bytes one_in.
Proof.
  apply (reachable_cursor_bounds one_in).
  apply (reach_push fresh [x11] 1 true one_in).
  - apply reach_init. reflexivity.
  - vm_compute. split; discriminate.
  - vm_compute. reflexivity.
Defined.

(** ** Conservation *)

(** C9.  Whatever the two cursors are, in particular for every pair in
    [0, BUFFER_SIZE - 1], occupied and free bytes add up to
    [BUFFER_SIZE - 1].  A successful push of [len] bytes raises the
    occupied bytes by [len] and lowers the free bytes by [len]; a
    successful pop of [len] bytes does the reverse. *)
Theorem occupied_free_conservation
    (rb pushed popped : ring_buffer_t) (buf buf' : list byte) (len : Z) :
  data_ok rb -> 0 <= len ->
  occupied_bytes rb + free_bytes rb = BUFFER_SIZE - 1 /\
  (ring_push rb buf len = Some (true, pushed) ->
   occupied_bytes pushed = occupied_bytes rb + len /\
   free_bytes pushed = free_bytes rb - len) /\
  (ring_pop rb buf len = Some (true, popped, buf') ->
   occupied_bytes popped = occupied_bytes rb - len /\
   free_bytes popped = free_bytes rb + len).
Proof.
  intros Hd Hlen.
  pose proof (occupied_plus_free rb) as Hsum.
  split; [done|]. split; intros Hcall.
  - pose proof (occupied_plus_free pushed) as Hsum'.
    destruct (ring_push_true rb pushed buf len) as (Hav & _ & Ht & Hh & _);
      [done..|].
    rewrite push_available_mod in Hav.
    assert (occupied_bytes pushed = occupied_bytes rb + len)
      by (apply occupied_after_push; [unfold free_bytes; lia|done..]).
    lia.
  - pose proof (occupied_plus_free popped) as Hsum'.
    destruct (ring_pop_true rb popped buf buf' len) as (Hav & _ & Hh & Ht & _);
      [done..|].
    rewrite pop_available_mod in Hav.
    assert (occupied_bytes popped = occupied_bytes rb - len)
      by (apply occupied_after_pop; [unfold occupied_bytes; lia|done..]).
    lia.
Qed.

Lemma occupied_free_conservation_witness :
  occupied_bytes one_in + free_bytes one_in = BUFFER_SIZE - 1 /\
  (occupied_bytes two_in = occupied_bytes one_in + 1 /\
   free_bytes two_in = free_bytes one_in - 1) /\
  (occupied_bytes one_out = occupied_bytes one_in - 1 /\
   free_bytes one_out = free_bytes one_in + 1).
Proof.
  destruct (occupied_free_conservation one_in two_in one_out [x22] [x11] 1)
    as (Hsum & Hpush & Hpop).
  - reflexivity.
  - lia.
  - split; [exact Hsum|].
    split; [apply Hpush|apply Hpop]; vm_compute; reflexivity.
Defined.

(** ** Frame *)

(** C10.  A successful push changes the head cursor and the storage slots
    [(head + i) mod BUFFER_SIZE] for [i] in [[0, len)], which receive the
    source bytes; the tail cursor, the size of the storage and every other
    slot stay as they were.  A successful pop changes the tail cursor only:
    the head cursor and the whole storage stay as they were. *)
Theorem operation_frame
    (rb pushed popped : ring_buffer_t) (buf buf' : list byte) (len : Z) :
  data_ok rb -> 0 <= len ->
  (ring_push rb buf len = Some (true, pushed) ->
   tail pushed = tail rb /\
   head pushed = (head rb + len) mod BUFFER_SIZE /\
   length (data pushed) = length (data rb) /\
   (forall i, 0 <= i < len ->
      load (data pushed) ((head rb + i) mod BUFFER_SIZE) = load buf i) /\
   (forall k, (forall i, 0 <= i < len -> k <> (head rb + i) mod BUFFER_SIZE) ->
      load (data pushed) k = load (data rb) k)) /\
  (ring_pop rb buf len = Some (true, popped, buf') ->
   head popped = head rb /\
   tail popped = (tail rb + len) mod BUFFER_SIZE /\
   data popped = data rb).
Proof.
  intros Hd Hlen. split; intros Hcall.
  - destruct (ring_push_true rb pushed buf len)
      as (_ & _ & Ht & Hh & Hl & Hwr & Hfr); [done..|].
    repeat split; try done.
    + intros i Hi. rewrite <- slot_mod. by apply Hwr.
    + intros k Hk. apply Hfr. intros j Hj. rewrite slot_mod. by apply Hk.
  - destruct (ring_pop_true rb popped buf buf' len)
      as (_ & _ & Hh & Ht & Hdata & _); done.
Qed.

Lemma operation_frame_witness :
  (tail two_in = tail one_in /\
   head two_in = (head one_in + 1) mod BUFFER_SIZE /\
   length (data two_in) = length (data one_in) /\
   (forall i, 0 <= i < 1 ->
      load (data two_in) ((head one_in + i) mod BUFFER_SIZE) = load [x22] i) /\
   (forall k, (forall i, 0 <= i < 1 -> k <> (head one_in + i) mod BUFFER_SIZE) ->
      load (data two_in) k = load (data one_in) k)) /\
  (head one_out = head one_in /\
   tail one_out = (tail one_in + 1) mod BUFFER_SIZE /\
   data one_out = data one_in).
Proof.
  destruct (operation_frame one_in two_in one_out [x22] [x11] 1)
    as (Hpush & Hpop).
  - reflexivity.
  - lia.
  - split; [apply Hpush|apply Hpop]; vm_compute; reflexivity.
Defined.

(** ** The queue held by the storage *)

Lemma slot_head_tail (rb : ring_buffer_t) (j : Z) :
  slot (head rb) j = slot (tail rb) (occupied_bytes rb + j).
Proof.
  rewrite !slot_mod. unfold occupied_bytes. mod_arith.
Qed.

Lemma slot_advance (t len i : Z) :
  slot ((t + len) mod BUFFER_SIZE) i = slot t (len + i).
Proof.
  rewrite !slot_mod. mod_arith.
Qed.

Lemma holds_empty (rb : ring_buffer_t) : head rb = tail rb -> holds rb [].
Proof.
  intros Heq. split.
  - unfold occupied_bytes. rewrite Heq, Z.sub_diag. reflexivity.
  - simpl. intros i Hi. lia.
Qed.

(** The storage determines the queue. *)
Lemma holds_unique (rb : ring_buffer_t) (q q' : list byte) :
  holds rb q -> holds rb q' -> q = q'.
Proof.
  intros [Hl Hq] [Hl' Hq'].
  assert (length q = length q') as Hlen by lia.
  apply list_eq. intros i.
  destruct (decide (i < length q)%nat) as [Hi|Hi].
  - rewrite <- Hq, <- Hq' by lia. reflexivity.
  - rewrite !lookup_ge_None_2 by lia. reflexivity.
Qed.

(** A successful push appends the bytes it was given. *)
Lemma holds_push (rb rb' : ring_buffer_t) (q src : list byte) (len : Z) :
  data_ok rb -> 0 <= len -> holds rb q ->
  ring_push rb src len = Some (true, rb') ->
  holds rb' (q ++ take (Z.to_nat len) src).
Proof.
  intros Hd Hlen [Hq Hget] Hcall.
  destruct (ring_push_true rb rb' src len)
    as (Hav & Hsrc & Ht & Hh & Hl & Hwr & Hfr); [done..|].
  rewrite push_available_mod in Hav.
  assert (occupied_bytes rb' = occupied_bytes rb + len) as Hocc
    by (apply occupied_after_push; [unfold free_bytes; lia|done..]).
  pose proof (occupied_plus_free rb) as Hsum. unfold free_bytes in Hsum.
  split.
  - rewrite length_app, length_take. lia.
  - rewrite length_app, length_take. intros i Hi. rewrite Ht.
    destruct (decide (i < length q)%nat) as [Hlt|Hge].
    + rewrite lookup_app_l by done. rewrite <- Hget by done.
      apply Hfr. intros j Hj. rewrite slot_head_tail. intros Heq.
      apply slot_inj in Heq; unfold BUFFER_SIZE in *; lia.
    + rewrite lookup_app_r by lia.
      rewrite lookup_take_lt by lia.
      rewrite <- load_lookup.
      replace (Z.of_nat i)
        with (occupied_bytes rb + Z.of_nat (i - length q)) at 1 by lia.
      rewrite <- slot_head_tail. apply Hwr. lia.
Qed.

(** A successful pop delivers the front of the queue and leaves the rest. *)
Lemma holds_pop (rb rb' : ring_buffer_t) (q dst dst' : list byte) (len : Z) :
  data_ok rb -> 0 <= len -> holds rb q ->
  ring_pop rb dst len = Some (true, rb', dst') ->
  take (Z.to_nat len) dst' = take (Z.to_nat len) q /\
  holds rb' (drop (Z.to_nat len) q).
Proof.
  intros Hd Hlen [Hq Hget] Hcall.
  destruct (ring_pop_true rb rb' dst dst' len)
    as (Hav & Hdst & Hh & Ht & Hdata & Hl & Hrd & Hfr); [done..|].
  rewrite pop_available_mod in Hav. fold (occupied_bytes rb) in Hav.
  assert (occupied_bytes rb' = occupied_bytes rb - len) as Hocc
    by (apply occupied_after_pop; [lia|done..]).
  split; [|split].
  - apply list_eq. intros i.
    destruct (decide (i < Z.to_nat len)%nat) as [Hlt|Hge].
    + rewrite !lookup_take_lt by done.
      rewrite <- Hget by lia. rewrite <- load_lookup. apply Hrd. lia.
    + rewrite !lookup_take_ge by lia. reflexivity.
  - rewrite length_drop. lia.
  - rewrite length_drop. intros i Hi.
    rewrite lookup_drop, Hdata, Ht, slot_advance.
    rewrite <- Hget by lia. f_equal. f_equal. lia.
Qed.

(** ** Push then pop *)

(** C6, as the code has it.  On an empty buffer, wherever its two equal
    cursors stand, a push of [len] bytes followed by a pop of [len] bytes
    both succeed and the pop delivers exactly the bytes pushed, also when
    the slots used run over the end of the storage; the buffer is empty
    again afterwards. *)
Theorem push_pop_roundtrip (rb : ring_buffer_t) (src dst : list byte) (len : Z) :
  data_ok rb -> head rb = tail rb ->
  0 <= len <= BUFFER_SIZE - 1 ->
  len <= Z.of_nat (length src) -> len <= Z.of_nat (length dst) ->
  exists rb1 rb2 dst',
    ring_push rb src len = Some (true, rb1) /\
    ring_pop rb1 dst len = Some (true, rb2, dst') /\
    take (Z.to_nat len) dst' = take (Z.to_nat len) src /\
    head rb2 = tail rb2.
Proof.
  intros Hd Heq Hlen Hsrc Hdst.
  destruct (ring_push_succeeds rb src len) as [rb1 Hpush]; [done|lia| |].
  { rewrite push_available_mod, Heq.
    replace (tail rb - tail rb - 1) with (-1) by lia.
    change (-1 mod BUFFER_SIZE) with (BUFFER_SIZE - 1). lia. }
  destruct (ring_push_true rb rb1 src len)
    as (_ & _ & Ht1 & Hh1 & Hl1 & _); [done|lia|done|].
  assert (data_ok rb1) as Hd1 by (unfold data_ok in *; congruence).
  pose proof (holds_push rb rb1 [] src len Hd ltac:(lia)
                (holds_empty rb Heq) Hpush) as Hq1.
  simpl in Hq1.
  destruct (ring_pop_succeeds rb1 dst len) as (rb2 & dst' & Hpop);
    [done|lia| |].
  { rewrite pop_available_mod. destruct Hq1 as [Hlen1 _].
    unfold occupied_bytes in Hlen1. rewrite <- Hlen1, length_take. lia. }
  exists rb1, rb2, dst'. split; [done|]. split; [done|].
  destruct (holds_pop rb1 rb2 _ dst dst' len Hd1 ltac:(lia) Hq1 Hpop)
    as [Htake _].
  destruct (ring_pop_true rb1 rb2 dst dst' len)
    as (_ & _ & Hh2 & Ht2 & _); [done|lia|done|].
  split.
  - rewrite Htake. apply take_idemp.
  - rewrite Hh2, Ht2, Hh1, Ht1, Heq. reflexivity.
Qed.

Lemma push_pop_roundtrip_witness :
  exists rb1 rb2 dst',
    ring_push near_end [x01; x02; x03; x04; x05] 5 = Some (true, rb1) /\
    ring_pop rb1 (replicate 5 x00) 5 = Some (true, rb2, dst') /\
    take (Z.to_nat 5) dst' = take (Z.to_nat 5) [x01; x02; x03; x04; x05] /\
    head rb2 = tail rb2.
Proof.
  apply (push_pop_roundtrip near_end [x01; x02; x03; x04; x05]
           (replicate 5 x00) 5).
  - reflexivity.
  - reflexivity.
  - unfold BUFFER_SIZE. lia.
  - simpl. lia.
  - simpl. lia.
Defined.

(** The five bytes pushed at [near_end] land in slots 1021, 1022, 1023, 0
    and 1, and the pop reads them back in the order they were pushed. *)
Example push_wraps_at_near_end :
  ring_push near_end [x01; x02; x03; x04; x05] 5
  = Some (true,
          {| data := [x04; x05] ++ replicate 1019 x00 ++ [x01; x02; x03];
             head := 2; tail := 1021 |}).
Proof. vm_compute. reflexivity. Qed.

Example pop_wraps_at_near_end :
  ring_pop {| data := [x04; x05] ++ replicate 1019 x00 ++ [x01; x02; x03];
              head := 2; tail := 1021 |} (replicate 5 x00) 5
  = Some (true,
          {| data := [x04; x05] ++ replicate 1019 x00 ++ [x01; x02; x03];
             head := 2; tail := 2 |},
          [x01; x02; x03; x04; x05]).
Proof. vm_compute. reflexivity. Qed.

(** C6, as stated, fails on a buffer that is not empty.  [one_in] is
    reachable and holds the byte [x11]; a push of [x22] and a pop of one
    byte both succeed there, and the pop delivers [x11], the byte that was
    in the buffer before, not the byte just pushed. *)
Lemma push_pop_on_nonempty_buffer :
  reachable one_in /\
  ring_push one_in [x22] 1 = Some (true, two_in) /\
  ring_pop two_in [x00] 1 = Some (true, two_in_one_out, [x11]) /\
  take (Z.to_nat 1) [x11] <> take (Z.to_nat 1) [x22].
Proof.
  split; [|split; [|split]].
  - apply (reach_push fresh [x11] 1 true one_in).
    + apply reach_init. reflexivity.
    + vm_compute. split; discriminate.
    + vm_compute. reflexivity.
  - vm_compute. reflexivity.
  - vm_compute. reflexivity.
  - simpl. discriminate.
Qed.

(** ** FIFO delivery *)

(** The queue invariant along a run: what the buffer held plus what the
    pushes supplied is what the pops delivered plus what the buffer holds
    at the end. *)
Lemma run_fifo (ops : list op) :
  forall (rb : ring_buffer_t) (q : list byte),
    rb_inv rb -> holds rb q ->
    Forall op_sized ops -> admissible rb ops ->
    exists rb' oks out q',
      run rb ops = Some (rb', oks, out) /\
      Forall (eq true) oks /\
      q ++ supplied ops = out ++ q' /\
      holds rb' q' /\ rb_inv rb'.
Proof.
  induction ops as [|[src len|dst len] rest IH]; intros rb q Hinv Hq Hsz Hadm.
  - exists rb, [], [], q. simpl. rewrite app_nil_r.
    split; [done|]. split; [constructor|]. by split.
  - apply Forall_cons in Hsz as [Hlen Hsz]. simpl in Hlen.
    destruct Hadm as [Hfree Hadm]. destruct Hinv as [Hd Hc].
    destruct (ring_push_succeeds rb src len) as [rb1 Hpush]; [done..| |].
    { rewrite push_available_mod. exact Hfree. }
    rewrite Hpush in Hadm.
    assert (rb_inv rb1) as Hinv1
      by (apply (ring_push_inv rb rb1 src len true); [by split|lia|done]).
    pose proof (holds_push rb rb1 q src len Hd ltac:(lia) Hq Hpush) as Hq1.
    destruct (IH rb1 _ Hinv1 Hq1 Hsz Hadm)
      as (rb' & oks & out & q' & Hrun & Hoks & Heq & Hq' & Hinv').
    exists rb', (true :: oks), out, q'. simpl. rewrite Hpush. simpl.
    rewrite Hrun. simpl.
    split; [done|]. split; [by constructor|].
    split; [by rewrite app_assoc|by split].
  - apply Forall_cons in Hsz as [Hlen Hsz]. simpl in Hlen.
    destruct Hadm as [Hocc Hadm]. destruct Hinv as [Hd Hc].
    destruct (ring_pop_succeeds rb dst len) as (rb1 & dst' & Hpop); [done..| |].
    { rewrite pop_available_mod. exact Hocc. }
    rewrite Hpop in Hadm.
    assert (rb_inv rb1) as Hinv1
      by (apply (ring_pop_inv rb rb1 dst dst' len true); [by split|lia|done]).
    destruct (holds_pop rb rb1 q dst dst' len Hd ltac:(lia) Hq Hpop)
      as [Htake Hq1].
    destruct (IH rb1 _ Hinv1 Hq1 Hsz Hadm)
      as (rb' & oks & out & q' & Hrun & Hoks & Heq & Hq' & Hinv').
    exists rb', (true :: oks), (take (Z.to_nat len) dst' ++ out), q'.
    simpl. rewrite Hpop. simpl. rewrite Hrun. simpl.
    split; [done|]. split; [by constructor|]. split; [|by split].
    rewrite <- app_assoc, <- Heq, Htake, app_assoc, take_drop. reflexivity.
Qed.

(** C1.  Start from an initialised buffer and make any sequence of calls in
    which every push asks for no more than the free bytes and every pop for
    no more than the occupied bytes at the time of the call.  Then every
    call succeeds, and the bytes the pops deliver, concatenated, are a
    prefix of the bytes the pushes supplied, concatenated: the same bytes
    in the same order, however often the cursors wrap.  The rest of the
    supplied bytes is what the buffer still holds. *)
Theorem fifo_order (d : list byte) (ops : list op) :
  Z.of_nat (length d) = BUFFER_SIZE ->
  Forall op_sized ops ->
  admissible (init_buffer d) ops ->
  exists rb' oks out,
    run (init_buffer d) ops = Some (rb', oks, out) /\
    Forall (eq true) oks /\
    out `prefix_of` supplied ops /\
    exists q, supplied ops = out ++ q /\ holds rb' q.
Proof.
  intros Hd Hsz Hadm.
  destruct (run_fifo ops (init_buffer d) [])
    as (rb' & oks & out & q & Hrun & Hoks & Heq & Hq & _);
    [by apply init_buffer_inv|by apply holds_empty|done..|].
  simpl in Heq.
  exists rb', oks, out.
  split; [done|]. split; [done|]. split; by exists q.
Qed.

Lemma fifo_order_witness :
  exists rb' oks out,
    run (init_buffer zero_data) wraparound_basic = Some (rb', oks, out) /\
    Forall (eq true) oks /\
    out `prefix_of` supplied wraparound_basic /\
    exists q, supplied wraparound_basic = out ++ q /\ holds rb' q.
Proof.
  apply (fifo_order zero_data wraparound_basic).
  - reflexivity.
  - repeat constructor; vm_compute; discriminate.
  - vm_compute. repeat split; discriminate.
Defined.

(** The run of [wraparound_basic], evaluated: the four calls succeed, the
    cursors meet again at slot 100 after one trip round the storage, and
    the pops deliver the 924 and the 200 bytes as they were pushed. *)
Example wraparound_basic_run :
  run fresh wraparound_basic
  = Some ({| data := replicate 20 xa1 ++ replicate 80 xb2
                     ++ replicate 824 x11 ++ replicate 100 xa1;
             head := 100; tail := 100 |},
          [true; true; true; true],
          replicate 924 x11 ++ replicate 120 xa1 ++ replicate 80 xb2).
Proof. vm_compute. reflexivity. Qed.

(** * Further properties of the two operations *)

(** ** Which of the three outcomes a call has *)

Lemma push_loop_short (n : nat) (i h : Z) (src d : list byte) :
  0 <= i <= Z.of_nat (length src) ->
  Z.of_nat (length src) < i + Z.of_nat n ->
  push_loop n i h src d = None.
Proof.
  intros Hi Hshort.
  destruct (push_loop n i h src d) as [d'|] eqn:Hrun; [|done].
  apply push_loop_src in Hrun; lia.
Qed.

Lemma pop_loop_short (n : nat) (i t : Z) (d dst : list byte) :
  0 <= i <= Z.of_nat (length dst) ->
  Z.of_nat (length dst) < i + Z.of_nat n ->
  pop_loop n i t d dst = None.
Proof.
  intros Hi Hshort.
  destruct (pop_loop n i t d dst) as [d'|] eqn:Hrun; [|done].
  apply pop_loop_dst in Hrun; lia.
Qed.

(** [ring_push] compares the request with the free bytes before it touches
    anything.  A request that does not fit fails, whatever the source
    buffer is; one that fits succeeds when the source buffer has [len]
    bytes, and reads past the end of the source buffer when it has not. *)
Theorem ring_push_outcome (rb : ring_buffer_t) (src : list byte) (len : Z) :
  data_ok rb -> 0 <= len ->
  (free_bytes rb < len -> ring_push rb src len = Some (false, rb)) /\
  (len <= free_bytes rb -> len <= Z.of_nat (length src) ->
   exists rb', ring_push rb src len = Some (true, rb')) /\
  (len <= free_bytes rb -> Z.of_nat (length src) < len ->
   ring_push rb src len = None).
Proof.
  intros Hd Hlen. unfold free_bytes. rewrite <- push_available_mod.
  split; [|split].
  - intros Hgt. apply ring_push_fail. lia.
  - intros Hfit Hsrc. apply ring_push_succeeds; [done|lia|done].
  - intros Hfit Hsrc. unfold ring_push.
    destruct (Z.gtb_spec len (push_available (head rb) (tail rb))); [lia|].
    rewrite push_loop_short; [done|lia|lia].
Qed.

Lemma ring_push_outcome_witness :
  exists rb', ring_push one_in [x22] 1 = Some (true, rb').
Proof.
  destruct (ring_push_outcome one_in [x22] 1) as (_ & Hfits & _).
  - reflexivity.
  - lia.
  - apply Hfits.
    + vm_compute. discriminate.
    + simpl. lia.
Defined.

(** [ring_pop] compares the request with the occupied bytes before it
    touches anything.  A request for more than is there fails; one for at
    most that much succeeds when the destination buffer has room for [len]
    bytes, and writes past its end when it has not. *)
Theorem ring_pop_outcome (rb : ring_buffer_t) (dst : list byte) (len : Z) :
  data_ok rb -> 0 <= len ->
  (occupied_bytes rb < len -> ring_pop rb dst len = Some (false, rb, dst)) /\
  (len <= occupied_bytes rb -> len <= Z.of_nat (length dst) ->
   exists rb' dst', ring_pop rb dst len = Some (true, rb', dst')) /\
  (len <= occupied_bytes rb -> Z.of_nat (length dst) < len ->
   ring_pop rb dst len = None).
Proof.
  intros Hd Hlen. unfold occupied_bytes. rewrite <- pop_available_mod.
  split; [|split].
  - intros Hgt. apply ring_pop_fail. lia.
  - intros Hfit Hdst. apply ring_pop_succeeds; [done|lia|done].
  - intros Hfit Hdst. unfold ring_pop.
    destruct (Z.gtb_spec len (pop_available (head rb) (tail rb))); [lia|].
    rewrite pop_loop_short; [done|lia|lia].
Qed.

Lemma ring_pop_outcome_witness :
  ring_pop two_in [x00; x00] 3 = Some (false, two_in, [x00; x00]).
Proof.
  destruct (ring_pop_outcome two_in [x00; x00] 3) as (Hfails & _ & _).
  - reflexivity.
  - lia.
  - apply Hfails. vm_compute. reflexivity.
Defined.

(** A push past the end of a short source buffer, evaluated. *)
Example ring_push_short_source : ring_push fresh [x01; x02] 3 = None.
Proof. vm_compute. reflexivity. Qed.

(** ** The storage as a queue *)

Lemma read_slots_length (d : list byte) (t : Z) (n : nat) :
  forall i : Z,
    Z.of_nat (length d) = BUFFER_SIZE -> length (read_slots d t i n) = n.
Proof.
  induction n as [|m IH]; intros i Hd; [done|]. simpl.
  destruct (load_Some_lt d (slot t i)) as [b ->].
  { pose proof (slot_range t i). lia. }
  simpl. by rewrite IH.
Qed.

Lemma read_slots_lookup (d : list byte) (t : Z) (n : nat) :
  forall (i : Z) (j : nat),
    Z.of_nat (length d) = BUFFER_SIZE -> (j < n)%nat ->
    read_slots d t i n !! j = load d (slot t (i + Z.of_nat j)).
Proof.
  induction n as [|m IH]; intros i j Hd Hj; [lia|]. simpl.
  destruct (load_Some_lt d (slot t i)) as [b Hb].
  { pose proof (slot_range t i). lia. }
  rewrite Hb. destruct j as [|j].
  - simpl. rewrite Z.add_0_r. by rewrite Hb.
  - simpl. rewrite IH by (done || lia). do 2 f_equal. lia.
Qed.

Lemma holds_contents (rb : ring_buffer_t) : data_ok rb -> holds rb (contents rb).
Proof.
  intros Hd. pose proof (occupied_range rb) as Hr. unfold contents. split.
  - rewrite read_slots_length by done. lia.
  - rewrite read_slots_length by done. intros i Hi.
    rewrite read_slots_lookup by done. reflexivity.
Qed.

Lemma holds_is_contents (rb : ring_buffer_t) (q : list byte) :
  data_ok rb -> holds rb q -> q = contents rb.
Proof. intros Hd Hq. eapply holds_unique; [done|by apply holds_contents]. Qed.

Lemma contents_length (rb : ring_buffer_t) :
  data_ok rb -> Z.of_nat (length (contents rb)) = occupied_bytes rb.
Proof. intros Hd. by destruct (holds_contents rb Hd). Qed.

Lemma ring_push_data_ok (rb rb' : ring_buffer_t) (src : list byte) (len : Z) :
  data_ok rb -> 0 <= len ->
  ring_push rb src len = Some (true, rb') -> data_ok rb'.
Proof.
  intros Hd Hlen Hcall.
  destruct (ring_push_true rb rb' src len) as (_ & _ & _ & _ & Hl & _);
    [done..|].
  unfold data_ok in *. congruence.
Qed.

Lemma ring_pop_data_ok (rb rb' : ring_buffer_t) (dst dst' : list byte) (len : Z) :
  data_ok rb -> 0 <= len ->
  ring_pop rb dst len = Some (true, rb', dst') -> data_ok rb'.
Proof.
  intros Hd Hlen Hcall.
  destruct (ring_pop_true rb rb' dst dst' len) as (_ & _ & _ & _ & Hl & _);
    [done..|].
  unfold data_ok in *. congruence.
Qed.

(** A successful push appends the first [len] bytes of the source buffer
    to the bytes waiting in the storage, in every state and wherever the
    cursors stand. *)
Theorem push_appends_to_contents
    (rb rb' : ring_buffer_t) (src : list byte) (len : Z) :
  data_ok rb -> 0 <= len ->
  ring_push rb src len = Some (true, rb') ->
  contents rb' = contents rb ++ take (Z.to_nat len) src /\
  Z.of_nat (length (contents rb')) = Z.of_nat (length (contents rb)) + len.
Proof.
  intros Hd Hlen Hcall.
  pose proof (ring_push_data_ok rb rb' src len Hd Hlen Hcall) as Hd'.
  pose proof (holds_push rb rb' _ src len Hd Hlen (holds_contents rb Hd) Hcall)
    as Hq.
  apply holds_is_contents in Hq; [|done].
  split; [done|].
  destruct (ring_push_true rb rb' src len) as (_ & Hsrc & _); [done..|].
  rewrite <- Hq, length_app, length_take. lia.
Qed.

Lemma push_appends_to_contents_witness :
  contents two_in = contents one_in ++ take (Z.to_nat 1) [x22] /\
  Z.of_nat (length (contents two_in)) = Z.of_nat (length (contents one_in)) + 1.
Proof.
  apply (push_appends_to_contents one_in two_in [x22] 1).
  - reflexivity.
  - lia.
  - vm_compute. reflexivity.
Defined.

Lemma pop_takes_from_contents_aux
    (rb rb' : ring_buffer_t) (dst dst' : list byte) (len : Z) :
  data_ok rb -> 0 <= len ->
  ring_pop rb dst len = Some (true, rb', dst') ->
  dst' = take (Z.to_nat len) (contents rb) ++ drop (Z.to_nat len) dst /\
  contents rb' = drop (Z.to_nat len) (contents rb).
Proof.
  intros Hd Hlen Hcall.
  pose proof (ring_pop_data_ok rb rb' dst dst' len Hd Hlen Hcall) as Hd'.
  destruct (holds_pop rb rb' _ dst dst' len Hd Hlen (holds_contents rb Hd) Hcall)
    as [Htake Hq].
  apply holds_is_contents in Hq; [|done].
  split; [|done].
  destruct (ring_pop_true rb rb' dst dst' len)
    as (Hav & Hdst & _ & _ & _ & Hl & _ & Hfr); [done..|].
  rewrite pop_available_mod in Hav. fold (occupied_bytes rb) in Hav.
  rewrite <- (contents_length rb Hd) in Hav.
  rewrite <- Htake. rewrite <- (take_drop (Z.to_nat len) dst') at 1.
  f_equal. apply list_eq. intros i. rewrite !lookup_drop.
  rewrite <- !load_lookup. apply Hfr. lia.
Qed.

(** A successful pop delivers the oldest [len] waiting bytes into the first
    [len] bytes of the destination buffer, leaves the rest of the
    destination buffer as it was, and leaves the younger bytes waiting. *)
Theorem pop_takes_from_contents
    (rb rb' : ring_buffer_t) (dst dst' : list byte) (len : Z) :
  data_ok rb -> 0 <= len ->
  ring_pop rb dst len = Some (true, rb', dst') ->
  dst' = take (Z.to_nat len) (contents rb) ++ drop (Z.to_nat len) dst /\
  contents rb' = drop (Z.to_nat len) (contents rb).
Proof. apply pop_takes_from_contents_aux. Qed.

Lemma pop_takes_from_contents_witness :
  [x11; x00; x00] = take (Z.to_nat 1) (contents two_in)
                    ++ drop (Z.to_nat 1) [x00; x00; x00] /\
  contents two_in_one_out = drop (Z.to_nat 1) (contents two_in).
Proof.
  apply (pop_takes_from_contents two_in two_in_one_out [x00; x00; x00]
           [x11; x00; x00] 1).
  - reflexivity.
  - lia.
  - vm_compute. reflexivity.
Defined.

(** ** How calls compose *)

Lemma ring_ext (a b : ring_buffer_t) :
  data a = data b -> head a = head b -> tail a = tail b -> a = b.
Proof. destruct a, b. simpl. by intros -> -> ->. Qed.

Lemma load_outside (a : list byte) (k : Z) :
  ~ (0 <= k < Z.of_nat (length a)) -> load a k = None.
Proof.
  intros Hk. unfold load. destruct (decide (0 <= k)); [|done].
  apply lookup_ge_None_2. lia.
Qed.

Lemma load_to_nat (a : list byte) (i : Z) :
  0 <= i -> load a i = a !! Z.to_nat i.
Proof. intros Hi. unfold load. by rewrite decide_True. Qed.

(** Two arrays of the same size that agree on every index are equal. *)
Lemma load_ext_in (a a' : list byte) :
  length a' = length a ->
  (forall k, 0 <= k < Z.of_nat (length a) -> load a' k = load a k) ->
  a' = a.
Proof.
  intros Hl H. apply load_ext. intros k.
  destruct (decide (0 <= k < Z.of_nat (length a))) as [Hk|Hk]; [by apply H|].
  rewrite !load_outside by lia. reflexivity.
Qed.

(** What a slot holds after a successful push: a source byte when the slot
    is within [len] steps of the old head cursor, its old byte otherwise. *)
Lemma ring_push_load (rb rb' : ring_buffer_t) (src : list byte) (len k : Z) :
  data_ok rb -> 0 <= len ->
  ring_push rb src len = Some (true, rb') ->
  0 <= k < BUFFER_SIZE ->
  load (data rb') k =
    if decide ((k - head rb) mod BUFFER_SIZE < len)
    then load src ((k - head rb) mod BUFFER_SIZE)
    else load (data rb) k.
Proof.
  intros Hd Hlen Hcall Hk.
  destruct (ring_push_true rb rb' src len)
    as (_ & _ & _ & _ & _ & Hwr & Hfr); [done..|].
  pose proof (Z.mod_pos_bound (k - head rb) BUFFER_SIZE eq_refl) as Hj.
  destruct (decide _) as [Hin|Hout].
  - rewrite <- Hwr by lia. f_equal. rewrite slot_mod. mod_arith.
  - apply Hfr. intros j Hj' ->. apply Hout. rewrite slot_mod. mod_arith.
Qed.

(** The calls do not read the cursor of the other side beyond the guard:
    the push loop is a function of the head cursor and the storage. *)
Lemma ring_push_inv_loop (rb rb' : ring_buffer_t) (src : list byte) (len : Z) :
  ring_push rb src len = Some (true, rb') ->
  len <= push_available (head rb) (tail rb) /\
  exists d,
    push_loop (Z.to_nat len) 0 (head rb) src (data rb) = Some d /\
    rb' = mk_ring d (Z.land (size_add (head rb) len) (BUFFER_SIZE - 1)) (tail rb).
Proof.
  unfold ring_push.
  destruct (Z.gtb_spec len (push_available (head rb) (tail rb))); [done|].
  destruct (push_loop _ _ _ _ _) as [d|]; simpl; [|done].
  intros [= <-]. split; [lia|]. by exists d.
Qed.

(** A push and a pop that are both possible in a state can be made in
    either order: the pop delivers the same bytes and the final state is
    the same.  The producer's call and the consumer's call do not disturb
    each other. *)
Theorem push_pop_commute
    (rb rb1 rb2 : ring_buffer_t) (src dst dst2 : list byte) (l1 l2 : Z) :
  data_ok rb -> 0 <= l1 -> 0 <= l2 ->
  ring_push rb src l1 = Some (true, rb1) ->
  ring_pop rb dst l2 = Some (true, rb2, dst2) ->
  exists rb12,
    ring_pop rb1 dst l2 = Some (true, rb12, dst2) /\
    ring_push rb2 src l1 = Some (true, rb12).
Proof.
  intros Hd Hl1 Hl2 Hpush Hpop.
  pose proof (ring_push_data_ok rb rb1 src l1 Hd Hl1 Hpush) as Hd1.
  destruct (ring_push_true rb rb1 src l1)
    as (Hav1 & Hsrc & Ht1 & Hh1 & Hlen1 & Hwr1 & Hfr1); [done..|].
  destruct (ring_pop_true rb rb2 dst dst2 l2)
    as (Hav2 & Hdst & Hh2 & Ht2 & Hdata2 & Hlen2 & Hrd2 & Hfr2); [done..|].
  rewrite push_available_mod in Hav1. rewrite pop_available_mod in Hav2.
  fold (free_bytes rb) in Hav1. fold (occupied_bytes rb) in Hav2.
  pose proof (occupied_plus_free rb) as Hsum.
  assert (occupied_bytes rb1 = occupied_bytes rb + l1) as Hocc1
    by (apply occupied_after_push; [lia|done..]).
  (* the pop after the push *)
  destruct (ring_pop_succeeds rb1 dst l2) as (rb12 & dst' & Hpop1);
    [done|lia| |].
  { rewrite pop_available_mod. fold (occupied_bytes rb1). lia. }
  destruct (ring_pop_true rb1 rb12 dst dst' l2)
    as (_ & _ & Hh12 & Ht12 & Hdata12 & Hlen12 & Hrd12 & Hfr12); [done..|].
  assert (dst' = dst2) as ->.
  { apply load_ext_in; [congruence|]. intros k Hk.
    destruct (decide (0 <= k < l2)) as [Hin|Hout].
    - rewrite Hrd12, Hrd2 by done. rewrite Ht1. apply Hfr1.
      intros j Hj. rewrite slot_head_tail. intros Heq.
      apply slot_inj in Heq; unfold BUFFER_SIZE in *; lia.
    - rewrite Hfr12, Hfr2 by done. reflexivity. }
  exists rb12. split; [done|].
  (* the push after the pop *)
  apply ring_push_inv_loop in Hpush as (_ & d & Hloop & Hrb1).
  assert (free_bytes rb2 = free_bytes rb + l2) as Hfree2.
  { pose proof (occupied_plus_free rb2).
    assert (occupied_bytes rb2 = occupied_bytes rb - l2)
      by (apply occupied_after_pop; [lia|done..]).
    lia. }
  unfold ring_push.
  destruct (Z.gtb_spec l1 (push_available (head rb2) (tail rb2))) as [Hgt|_].
  { rewrite push_available_mod in Hgt. fold (free_bytes rb2) in Hgt. lia. }
  rewrite Hh2, Hdata2, Hloop. simpl. do 2 f_equal.
  apply ring_ext; simpl.
  - rewrite Hdata12, Hrb1. reflexivity.
  - rewrite Hh12, Hrb1. reflexivity.
  - rewrite Ht12, Ht1, Ht2. reflexivity.
Qed.

Lemma push_pop_commute_witness :
  exists rb12,
    ring_pop two_in [x00] 1 = Some (true, rb12, [x11]) /\
    ring_push one_out [x22] 1 = Some (true, rb12).
Proof.
  apply (push_pop_commute one_in two_in one_out [x22] [x00] [x11] 1 1).
  - reflexivity.
  - lia.
  - lia.
  - vm_compute. reflexivity.
  - vm_compute. reflexivity.
Defined.

(** Two successful pushes in a row leave the buffer exactly as one push of
    the two byte sequences joined: the same cursors and the same storage,
    slot by slot. *)
Theorem push_push_is_one_push
    (rb rb1 rb2 : ring_buffer_t) (s1 s2 : list byte) (l1 l2 : Z) :
  data_ok rb -> 0 <= l1 -> 0 <= l2 ->
  ring_push rb s1 l1 = Some (true, rb1) ->
  ring_push rb1 s2 l2 = Some (true, rb2) ->
  ring_push rb (take (Z.to_nat l1) s1 ++ take (Z.to_nat l2) s2) (l1 + l2)
  = Some (true, rb2).
Proof.
  intros Hd Hl1 Hl2 Hp1 Hp2.
  pose proof (ring_push_data_ok rb rb1 s1 l1 Hd Hl1 Hp1) as Hd1.
  destruct (ring_push_true rb rb1 s1 l1)
    as (Hav1 & Hs1 & Ht1 & Hh1 & Hlen1 & _); [done..|].
  destruct (ring_push_true rb1 rb2 s2 l2)
    as (Hav2 & Hs2 & Ht2 & Hh2 & Hlen2 & _); [done..|].
  rewrite push_available_mod in Hav1, Hav2.
  fold (free_bytes rb) in Hav1. fold (free_bytes rb1) in Hav2.
  pose proof (occupied_plus_free rb) as Hsum.
  pose proof (occupied_plus_free rb1) as Hsum1.
  pose proof (occupied_range rb) as Hocc.
  assert (occupied_bytes rb1 = occupied_bytes rb + l1) as Hocc1
    by (apply occupied_after_push; [lia|done..]).
  set (s := take (Z.to_nat l1) s1 ++ take (Z.to_nat l2) s2).
  assert (Z.of_nat (length s) = l1 + l2) as Hs
    by (unfold s; rewrite length_app, !length_take; lia).
  destruct (ring_push_succeeds rb s (l1 + l2)) as [rb' Hp]; [done|lia| |].
  { rewrite push_available_mod. fold (free_bytes rb). lia. }
  rewrite Hp. do 2 f_equal.
  destruct (ring_push_true rb rb' s (l1 + l2))
    as (_ & _ & Ht & Hh & Hlen & _); [done|lia|done|].
  apply ring_ext.
  - apply load_ext_in; [congruence|]. intros k Hk.
    assert (0 <= k < BUFFER_SIZE) as Hk'
      by (unfold data_ok in *; rewrite <- Hd, <- Hlen1, <- Hlen2; lia).
    rewrite (ring_push_load rb rb' s (l1 + l2)) by (done || lia).
    rewrite (ring_push_load rb1 rb2 s2 l2) by done.
    rewrite (ring_push_load rb rb1 s1 l1) by done.
    rewrite Hh1.
    pose proof (Z.mod_pos_bound (k - head rb) BUFFER_SIZE eq_refl) as Hj.
    assert ((k - (head rb + l1) mod BUFFER_SIZE) mod BUFFER_SIZE
            = ((k - head rb) mod BUFFER_SIZE - l1) mod BUFFER_SIZE) as ->
      by mod_arith.
    set (j := (k - head rb) mod BUFFER_SIZE) in *.
    destruct (decide (j < l1)) as [Hlt|Hge].
    + rewrite decide_True by lia.
      rewrite decide_False by mod_arith.
      rewrite !load_to_nat by lia. unfold s.
      rewrite lookup_app_l by (rewrite length_take; lia).
      apply lookup_take_lt. lia.
    + destruct (decide (j < l1 + l2)) as [Hin|Hout].
      * assert ((j - l1) mod BUFFER_SIZE = j - l1) as ->
          by (apply Z.mod_small; unfold BUFFER_SIZE in *; lia).
        rewrite decide_True by lia.
        rewrite !load_to_nat by lia. unfold s.
        rewrite lookup_app_r by (rewrite length_take; lia).
        rewrite length_take, lookup_take_lt by lia. f_equal. lia.
      * assert ((j - l1) mod BUFFER_SIZE = j - l1) as ->
          by (apply Z.mod_small; unfold BUFFER_SIZE in *; lia).
        rewrite decide_False by lia. reflexivity.
  - rewrite Hh, Hh2, Hh1. mod_arith.
  - congruence.
Qed.

Lemma push_push_is_one_push_witness :
  ring_push fresh (take (Z.to_nat 1) [x11] ++ take (Z.to_nat 1) [x22]) (1 + 1)
  = Some (true, two_in).
Proof.
  apply (push_push_is_one_push fresh one_in two_in [x11] [x22] 1 1).
  - reflexivity.
  - lia.
  - lia.
  - vm_compute. reflexivity.
  - vm_compute. reflexivity.
Defined.

(** Two successful pops in a row deliver the bytes that one pop of the
    two lengths together delivers, and leave the buffer in the same state. *)
Theorem pop_pop_is_one_pop
    (rb rb1 rb2 : ring_buffer_t) (dst1 dst1' dst2 dst2' dst : list byte)
    (l1 l2 : Z) :
  data_ok rb -> 0 <= l1 -> 0 <= l2 ->
  l1 + l2 <= Z.of_nat (length dst) ->
  ring_pop rb dst1 l1 = Some (true, rb1, dst1') ->
  ring_pop rb1 dst2 l2 = Some (true, rb2, dst2') ->
  ring_pop rb dst (l1 + l2)
  = Some (true, rb2,
          take (Z.to_nat l1) dst1' ++ take (Z.to_nat l2) dst2'
          ++ drop (Z.to_nat (l1 + l2)) dst).
Proof.
  intros Hd Hl1 Hl2 Hdst Hp1 Hp2.
  pose proof (ring_pop_data_ok rb rb1 dst1 dst1' l1 Hd Hl1 Hp1) as Hd1.
  destruct (ring_pop_true rb rb1 dst1 dst1' l1)
    as (Hav1 & _ & Hh1 & Ht1 & Hdata1 & _); [done..|].
  destruct (ring_pop_true rb1 rb2 dst2 dst2' l2)
    as (Hav2 & _ & Hh2 & Ht2 & Hdata2 & _); [done..|].
  rewrite pop_available_mod in Hav1, Hav2.
  fold (occupied_bytes rb) in Hav1. fold (occupied_bytes rb1) in Hav2.
  assert (occupied_bytes rb1 = occupied_bytes rb - l1) as Hocc1
    by (apply occupied_after_pop; [lia|done..]).
  destruct (ring_pop_succeeds rb dst (l1 + l2)) as (rb' & dst' & Hp);
    [done|lia| |].
  { rewrite pop_available_mod. fold (occupied_bytes rb). lia. }
  destruct (pop_takes_from_contents_aux rb rb1 dst1 dst1' l1) as [E1 C1];
    [done..|].
  destruct (pop_takes_from_contents_aux rb1 rb2 dst2 dst2' l2) as [E2 C2];
    [done..|].
  destruct (pop_takes_from_contents_aux rb rb' dst dst' (l1 + l2)) as [E C];
    [done|lia|done|].
  destruct (ring_pop_true rb rb' dst dst' (l1 + l2))
    as (_ & _ & Hh & Ht & Hdata & _); [done|lia|done|].
  rewrite Hp. do 2 f_equal.
  - f_equal. apply ring_ext.
    + congruence.
    + congruence.
    + rewrite Ht, Ht2, Ht1. mod_arith.
  - rewrite E, app_assoc. f_equal.
    pose proof (contents_length rb Hd) as Hlen.
    rewrite E1, E2, C1.
    rewrite take_app_le by (rewrite length_take; lia).
    rewrite (take_app_le _ _ (Z.to_nat l2))
      by (rewrite length_take, length_drop; lia).
    rewrite !take_idemp, take_take_drop. f_equal. lia.
Qed.

Lemma pop_pop_is_one_pop_witness :
  ring_pop two_in [x00; x00; x00] (1 + 1)
  = Some (true, two_in_two_out,
          take (Z.to_nat 1) [x11] ++ take (Z.to_nat 1) [x22]
          ++ drop (Z.to_nat (1 + 1)) [x00; x00; x00]).
Proof.
  apply (pop_pop_is_one_pop two_in two_in_one_out two_in_two_out
           [x00] [x11] [x00] [x22] [x00; x00; x00] 1 1).
  - reflexivity.
  - lia.
  - lia.
  - simpl. lia.
  - vm_compute. reflexivity.
  - vm_compute. reflexivity.
Defined.

(** ** Push and pop in turn *)

(** One round on an empty buffer: both calls succeed, the destination
    buffer receives the pushed bytes, and the buffer is empty again. *)
Lemma roundtrip_step (rb : ring_buffer_t) (src dst : list byte) (len : Z) :
  data_ok rb -> head rb = tail rb ->
  0 <= len <= BUFFER_SIZE - 1 ->
  len <= Z.of_nat (length src) -> len <= Z.of_nat (length dst) ->
  exists rb1 rb2 dst',
    ring_push rb src len = Some (true, rb1) /\
    ring_pop rb1 dst len = Some (true, rb2, dst') /\
    dst' = take (Z.to_nat len) src ++ drop (Z.to_nat len) dst /\
    data_ok rb2 /\ head rb2 = tail rb2 /\ length dst' = length dst.
Proof.
  intros Hd Heq Hlen Hsrc Hdst.
  pose proof (occupied_plus_free rb) as Hsum.
  assert (occupied_bytes rb = 0) as Hocc
    by (unfold occupied_bytes; rewrite Heq, Z.sub_diag; reflexivity).
  destruct (ring_push_succeeds rb src len) as [rb1 Hpush]; [done|lia| |].
  { rewrite push_available_mod. fold (free_bytes rb). lia. }
  pose proof (ring_push_data_ok rb rb1 src len Hd ltac:(lia) Hpush) as Hd1.
  destruct (ring_push_true rb rb1 src len)
    as (_ & _ & Ht1 & Hh1 & _); [done|lia|done|].
  pose proof (holds_push rb rb1 [] src len Hd ltac:(lia)
                (holds_empty rb Heq) Hpush) as Hq1.
  simpl in Hq1. pose proof (holds_is_contents rb1 _ Hd1 Hq1) as Hc1.
  destruct (ring_pop_succeeds rb1 dst len) as (rb2 & dst' & Hpop);
    [done|lia| |].
  { rewrite pop_available_mod. fold (occupied_bytes rb1).
    rewrite <- (contents_length rb1 Hd1), <- Hc1, length_take. lia. }
  exists rb1, rb2, dst'. split; [done|]. split; [done|].
  destruct (pop_takes_from_contents_aux rb1 rb2 dst dst' len) as [E _];
    [done|lia|done|].
  destruct (ring_pop_true rb1 rb2 dst dst' len)
    as (_ & _ & Hh2 & Ht2 & _ & Hl & _); [done|lia|done|].
  split; [by rewrite E, <- Hc1, take_idemp|].
  split; [by apply (ring_pop_data_ok rb1 rb2 dst dst' len); [|lia|]|].
  split; [|done]. rewrite Hh2, Ht2, Hh1, Ht1, Heq. reflexivity.
Qed.

(** Starting from an empty buffer, any number of rounds "push [len]
    bytes, pop [len] bytes" with [len <= BUFFER_SIZE - 1] goes through:
    every call returns [true], every pop delivers the bytes of its round's
    push, and the buffer is empty again at the end, however many times the
    cursors went round the storage. *)
Theorem push_pop_rounds_succeed
    (n k : nat) (srcs : nat -> list byte) (dst : list byte) (len : Z)
    (rb : ring_buffer_t) :
  data_ok rb -> head rb = tail rb ->
  0 <= len <= BUFFER_SIZE - 1 ->
  (forall i : nat, len <= Z.of_nat (length (srcs i))) ->
  len <= Z.of_nat (length dst) ->
  exists rb' outs,
    push_pop_rounds n k srcs dst len rb = Some (rb', outs) /\
    length outs = n /\
    head rb' = tail rb' /\
    forall i : nat, (i < n)%nat ->
      exists d, outs !! i = Some (true, true, d) /\
                take (Z.to_nat len) d = take (Z.to_nat len) (srcs (k + i)%nat).
Proof.
  revert k dst rb.
  induction n as [|m IH]; intros k dst rb Hd Heq Hlen Hsrcs Hdst.
  - exists rb, []. simpl. repeat split; try done. intros i Hi. lia.
  - destruct (roundtrip_step rb (srcs k) dst len)
      as (rb1 & rb2 & dst' & Hpush & Hpop & E & Hd2 & Heq2 & Hl); [done..|].
    destruct (IH (S k) dst' rb2) as (rb' & outs & Hrun & Hn & Hend & Houts);
      [done..|lia|].
    exists rb', ((true, true, dst') :: outs).
    simpl. rewrite Hpush. simpl. rewrite Hpop. simpl. rewrite Hrun. simpl.
    split; [done|]. split; [by rewrite Hn|]. split; [done|].
    intros [|i] Hi.
    + exists dst'. split; [done|]. rewrite Nat.add_0_r, E.
      pose proof (Hsrcs k) as Hk.
      rewrite take_app_le by (rewrite length_take; lia).
      apply take_idemp.
    + destruct (Houts i) as (d & Hd' & Ht); [lia|].
      exists d. split; [done|]. rewrite Ht. do 2 f_equal. lia.
Qed.

Lemma push_pop_rounds_succeed_witness :
  exists rb' outs,
    push_pop_rounds 400 0 (fun i => replicate 7 x5a) (replicate 7 x00) 7
      near_end = Some (rb', outs) /\
    length outs = 400%nat /\
    head rb' = tail rb' /\
    forall i : nat, (i < 400)%nat ->
      exists d, outs !! i = Some (true, true, d) /\
                take (Z.to_nat 7) d = take (Z.to_nat 7) (replicate 7 x5a).
Proof.
  apply (push_pop_rounds_succeed 400 0 (fun i => replicate 7 x5a)
           (replicate 7 x00) 7 near_end).
  - reflexivity.
  - reflexivity.
  - unfold BUFFER_SIZE. lia.
  - intros i. simpl. lia.
  - simpl. lia.
Defined.

(** * The variable-size producer and consumer *)

(** ** Bytes *)

Lemma byte_val_to_uint8 (z : Z) : byte_val (to_uint8 z) = z mod 256.
Proof.
  unfold byte_val, to_uint8.
  pose proof (Z.mod_pos_bound z 256 eq_refl) as Hr.
  destruct (Byte.of_N (Z.to_N (z mod 256))) as [b|] eqn:Hb.
  - apply Byte.to_of_N in Hb. rewrite Hb. lia.
  - apply Byte.of_N_None_iff in Hb. lia.
Qed.

Lemma byte_val_range (b : byte) : 0 <= byte_val b < 256.
Proof. unfold byte_val. pose proof (Byte.to_N_bounded b). lia. Qed.

Lemma byte_val_inj (a b : byte) : byte_val a = byte_val b -> a = b.
Proof.
  unfold byte_val. intros H. apply N2Z.inj in H.
  pose proof (Byte.of_to_N a) as Ha. rewrite H, Byte.of_to_N in Ha.
  congruence.
Qed.

Lemma land_255 (z : Z) : Z.land z 255 = z mod 256.
Proof. change 255 with (Z.ones 8). by rewrite Z.land_ones. Qed.

(** A low byte and a byte shifted by eight bits do not overlap. *)
Lemma lor_shiftl_8 (a b : Z) :
  0 <= a < 256 -> Z.lor a (Z.shiftl b 8) = a + 256 * b.
Proof.
  intros Ha. symmetry. rewrite Z.shiftl_mul_pow2 by lia.
  rewrite <- Z.add_nocarry_lor; [lia|].
  apply Z.bits_inj'. intros n Hn. rewrite Z.land_spec, Z.bits_0.
  destruct (Z.lt_ge_cases n 8) as [Hlt|Hge].
  - rewrite Z.mul_pow2_bits_low by lia. apply andb_false_r.
  - rewrite <- (Z.mod_small a (2 ^ 8)) by lia.
    rewrite Z.mod_pow2_bits_high by lia. reflexivity.
Qed.

(** The two id bytes of a message carry the id modulo [2 ^ 16]. *)
Lemma decode_id_encode (id : Z) :
  decode_id (to_uint8 (Z.land id 255))
            (to_uint8 (Z.land (Z.shiftr id 8) 255))
  = id mod 65536.
Proof.
  unfold decode_id. rewrite !byte_val_to_uint8, !land_255, !Z.mod_mod by lia.
  rewrite Z.shiftr_div_pow2 by lia. change (2 ^ 8) with 256.
  rewrite lor_shiftl_8 by (apply Z.mod_pos_bound; lia).
  Z.to_euclidean_division_equations. lia.
Qed.

Lemma variable_size_eq (id : Z) :
  0 <= id -> variable_size id = id mod 61 + 4.
Proof.
  intros Hid. unfold variable_size, size_add.
  pose proof (Z.mod_pos_bound id 61 eq_refl).
  apply Z.mod_small. unfold SIZE_BITS. lia.
Qed.

Lemma variable_size_range (id : Z) : 0 <= id -> 4 <= variable_size id <= 64.
Proof.
  intros Hid. rewrite variable_size_eq by done.
  pose proof (Z.mod_pos_bound id 61 eq_refl). lia.
Qed.

(** ** The message the producer builds *)

Lemma fill_payload_spec (n : nat) (msg : Z) :
  forall (j : Z) (d : list byte),
    0 <= j -> j + Z.of_nat n <= Z.of_nat (length d) ->
    exists d',
      fill_payload n j msg d = Some d' /\
      length d' = length d /\
      (forall k, j <= k < j + Z.of_nat n ->
         load d' k = Some (to_uint8 (Z.land (size_add msg k) 255))) /\
      (forall k, ~ (j <= k < j + Z.of_nat n) -> load d' k = load d k).
Proof.
  induction n as [|m IH]; intros j d Hj Hlen.
  - exists d. repeat split; try done. intros k Hk. lia.
  - destruct (store_Some_lt d j (to_uint8 (Z.land (size_add msg j) 255)))
      as [d1 Hd1]; [lia|].
    pose proof (store_length _ _ _ _ Hd1) as Hlen1.
    destruct (IH (j + 1) d1) as (d' & Hrun & Hl & Hwr & Hfr); [lia..|].
    exists d'. simpl. rewrite Hd1. simpl.
    split; [done|]. split; [congruence|]. split.
    + intros k Hk. destruct (decide (k = j)) as [->|Hne].
      * rewrite Hfr by lia. eapply load_store_eq, Hd1.
      * apply Hwr. lia.
    + intros k Hk. rewrite Hfr by lia.
      eapply load_store_ne; [exact Hd1|lia].
Qed.

Lemma fill_payload_short (n : nat) (msg : Z) :
  forall (j : Z) (d : list byte),
    0 <= j -> Z.of_nat (length d) < j + Z.of_nat n ->
    j <= Z.of_nat (length d) ->
    fill_payload n j msg d = None.
Proof.
  induction n as [|m IH]; intros j d Hj Hshort Hle; [lia|]. simpl.
  destruct (store d j _) as [d1|] eqn:Hd1; [|done]. simpl.
  pose proof (store_length _ _ _ _ Hd1) as Hl.
  unfold store in Hd1. destruct (decide _); [|done].
  apply IH; lia.
Qed.

Lemma variable_message_length (id : Z) :
  0 <= id -> Z.of_nat (length (variable_message id)) = variable_size id.
Proof.
  intros Hid. pose proof (variable_size_range id Hid).
  unfold variable_message.
  rewrite length_app, length_fmap, length_seq. simpl. lia.
Qed.

Lemma variable_message_lookup (id : Z) (k : nat) :
  0 <= id -> 3 <= Z.of_nat k < variable_size id ->
  variable_message id !! k
  = Some (to_uint8 (Z.land (size_add id (Z.of_nat k)) 255)).
Proof.
  intros Hid Hk. unfold variable_message.
  rewrite lookup_app_r by (simpl; lia). simpl.
  rewrite list_lookup_fmap, lookup_seq_lt by lia. simpl.
  do 4 f_equal. lia.
Qed.

(** The producer's stores stay inside its 64-byte array, and the first
    [size] bytes of the array are then the message. *)
Lemma build_variable_message_spec (id : Z) (d : list byte) :
  0 <= id -> length d = 64%nat ->
  exists d',
    build_variable_message id d = Some d' /\
    length d' = 64%nat /\
    take (Z.to_nat (variable_size id)) d' = variable_message id.
Proof.
  intros Hid Hd. pose proof (variable_size_range id Hid) as Hsz.
  unfold build_variable_message.
  destruct (store_Some_lt d 0 (to_uint8 (Z.land id 255))) as [d0 H0]; [lia|].
  pose proof (store_length _ _ _ _ H0) as L0.
  destruct (store_Some_lt d0 1 (to_uint8 (Z.land (Z.shiftr id 8) 255)))
    as [d1 H1]; [lia|].
  pose proof (store_length _ _ _ _ H1) as L1.
  destruct (store_Some_lt d1 2 (to_uint8 (variable_size id)))
    as [d2 H2]; [lia|].
  pose proof (store_length _ _ _ _ H2) as L2.
  destruct (fill_payload_spec (Z.to_nat (variable_size id - 3)) id 3 d2)
    as (d' & Hrun & L & Hwr & Hfr); [lia..|].
  rewrite H0. simpl. rewrite H1. simpl. rewrite H2. simpl.
  exists d'. split; [done|]. split; [congruence|].
  apply list_eq. intros k.
  destruct (decide (k < Z.to_nat (variable_size id))%nat) as [Hk|Hk].
  - rewrite lookup_take_lt by done. rewrite <- load_lookup.
    destruct (decide (3 <= Z.of_nat k)) as [Hpay|Hhead].
    + rewrite Hwr by lia. symmetry. apply variable_message_lookup; [done|lia].
    + rewrite Hfr by lia.
      destruct k as [|[|[|k]]]; [| | |lia]; simpl.
      * rewrite (load_store_ne _ _ _ _ _ H2) by lia.
        rewrite (load_store_ne _ _ _ _ _ H1) by lia.
        apply (load_store_eq _ _ _ _ H0).
      * rewrite (load_store_ne _ _ _ _ _ H2) by lia.
        apply (load_store_eq _ _ _ _ H1).
      * apply (load_store_eq _ _ _ _ H2).
  - rewrite lookup_take_ge by lia. symmetry. apply lookup_ge_None_2.
    pose proof (variable_message_length id Hid). lia.
Qed.

Lemma variable_messages_length_pos (id : Z) (n : nat) :
  0 <= id -> (0 < n)%nat ->
  variable_size id <= Z.of_nat (length (variable_messages id n)).
Proof.
  intros Hid Hn. destruct n as [|n]; [lia|]. cbn [variable_messages].
  rewrite length_app. pose proof (variable_message_length id Hid). lia.
Qed.

Lemma variable_messages_snoc (n : nat) :
  forall id : Z,
    variable_messages id (S n)
    = variable_messages id n ++ variable_message (id + Z.of_nat n).
Proof.
  induction n as [|m IH]; intros id.
  - cbn [variable_messages]. rewrite app_nil_r, Z.add_0_r. reflexivity.
  - change (variable_messages id (S (S m)))
      with (variable_message id ++ variable_messages (id + 1) (S m)).
    rewrite IH. cbn [variable_messages]. rewrite <- app_assoc.
    do 3 f_equal. lia.
Qed.

(** ** One turn of each thread *)

Lemma spsc_start_inv (num : Z) (d pd cd : list byte) :
  0 <= num -> Z.of_nat (length d) = BUFFER_SIZE ->
  length pd = 64%nat -> length cd = 64%nat ->
  spsc_inv num (spsc_start d pd cd).
Proof.
  intros Hnum Hd Hpd Hcd. split; simpl; try done; try lia; try by left.
  by apply holds_empty.
Qed.

(** The producer's turn.  It cannot go wrong; it pushes the message when
    the buffer has room, which is the case whenever the buffer is empty;
    it leaves the consumer's side alone. *)
Lemma producer_turn (num : Z) (s : spsc_state) :
  is_size num -> spsc_inv num s ->
  exists s',
    producer_variable_size_step num s = Some s' /\
    spsc_inv num s' /\
    expected_id s' = expected_id s /\ cons_status s' = cons_status s /\
    msg_id s <= msg_id s' /\
    spsc_left num s' <= spsc_left num s /\
    (prod_status s = Running ->
     msg_id s = expected_id s \/ msg_id s = num ->
     spsc_left num s' < spsc_left num s).
Proof.
  intros [Hnum0 Hnum] Hinv.
  pose proof Hinv as [Hd Hpd Hcd [He Hm] Hprod Hcons Hq Hps Hcs].
  unfold producer_variable_size_step, spsc_left.
  destruct (prod_status s) as [|v] eqn:Hst.
  2:{ exists s. rewrite ?Hst. split; [done|]. split; [done|].
      repeat split; (done || lia). }
  destruct (Z.ltb_spec (msg_id s) num) as [Hlt|Hge].
  2:{ eexists. split; [done|]. simpl.
      split; [|repeat split; lia].
      split; simpl; try done; try lia. right. split; [done|lia]. }
  pose proof (variable_size_range (msg_id s) ltac:(lia)) as Hsz.
  destruct (build_variable_message_spec (msg_id s) (prod_data s))
    as (d & -> & Hdl & Hmsg); [lia|done|]. simpl.
  assert (size_add (msg_id s) 1 = msg_id s + 1) as Hinc.
  { unfold size_add. apply Z.mod_small. unfold SIZE_MAX in Hnum. lia. }
  destruct (Z.gtb_spec (variable_size (msg_id s))
              (push_available (head (ring s)) (tail (ring s)))) as [Hfull|Hfit].
  - (* no room: the turn ends with [sched_yield] *)
    rewrite ring_push_fail by lia. simpl.
    eexists. split; [done|]. simpl.
    split; [by split; simpl; try done; try lia|].
    repeat split; try lia.
    intros _ [Hempty|Hdone]; [|lia]. exfalso.
    destruct Hq as [Hlen _]. rewrite Hempty, Z.sub_diag in Hlen.
    simpl in Hlen. pose proof (occupied_plus_free (ring s)) as Hsum.
    rewrite push_available_mod in Hfull. fold (free_bytes (ring s)) in Hfull.
    unfold BUFFER_SIZE in *. lia.
  - destruct (ring_push_succeeds (ring s) d (variable_size (msg_id s)))
      as [rb' Hpush]; [done|lia|lia|].
    rewrite Hpush. simpl. eexists. split; [done|]. simpl.
    split; [|repeat split; lia].
    split; simpl; try done; try lia.
    + by apply (ring_push_data_ok (ring s) rb' d (variable_size (msg_id s)));
        [|lia|].
    + rewrite Hprod. reflexivity.
    + rewrite Hinc.
      replace (Z.to_nat (msg_id s + 1 - expected_id s))
        with (S (Z.to_nat (msg_id s - expected_id s))) by lia.
      rewrite variable_messages_snoc.
      replace (expected_id s + Z.of_nat (Z.to_nat (msg_id s - expected_id s)))
        with (msg_id s) by lia.
      rewrite <- Hmsg.
      by apply (holds_push (ring s) rb' _ d (variable_size (msg_id s)));
        [|lia| |].
    + by left.
Qed.

(** What the consumer finds when the message for [id] is at the front of
    the buffer: the pop succeeds and puts the whole message into the
    consumer's array. *)
Lemma consumer_pop_front
    (rb : ring_buffer_t) (cd rest : list byte) (id : Z) :
  data_ok rb -> length cd = 64%nat -> 0 <= id ->
  holds rb (variable_message id ++ rest) ->
  exists rb' d,
    ring_pop rb cd (variable_size id) = Some (true, rb', d) /\
    data_ok rb' /\ length d = 64%nat /\
    load d 0 = Some (to_uint8 (Z.land id 255)) /\
    load d 1 = Some (to_uint8 (Z.land (Z.shiftr id 8) 255)) /\
    load d 2 = Some (to_uint8 (variable_size id)) /\
    holds rb' rest.
Proof.
  intros Hd Hcd Hid Hq.
  pose proof (variable_size_range id Hid) as Hsz.
  pose proof (variable_message_length id Hid) as Hml.
  destruct (ring_pop_succeeds rb cd (variable_size id)) as (rb' & d & Hpop);
    [done|lia| |].
  { rewrite pop_available_mod. fold (occupied_bytes rb).
    destruct Hq as [Hlen _]. rewrite <- Hlen, length_app. lia. }
  exists rb', d. split; [done|].
  destruct (holds_pop rb rb' _ cd d (variable_size id) Hd ltac:(lia) Hq Hpop)
    as [Htake Hrest].
  rewrite take_app_length' in Htake by lia.
  rewrite drop_app_length' in Hrest by lia.
  destruct (ring_pop_true rb rb' cd d (variable_size id))
    as (_ & _ & _ & _ & _ & Hl & _); [done|lia|done|].
  assert (forall k : nat, (k < 3)%nat ->
            load d (Z.of_nat k) = variable_message id !! k) as Hhd.
  { intros k Hk. rewrite <- Htake, lookup_take_lt by lia. apply load_lookup. }
  split; [by apply (ring_pop_data_ok rb rb' cd d (variable_size id)); [|lia|]|].
  split; [congruence|].
  split; [apply (Hhd 0%nat); lia|].
  split; [apply (Hhd 1%nat); lia|].
  split; [apply (Hhd 2%nat); lia|done].
Qed.

Lemma consumer_pop (num : Z) (s : spsc_state) :
  spsc_inv num s -> expected_id s < msg_id s ->
  exists rb' d,
    ring_pop (ring s) (cons_data s) (variable_size (expected_id s))
    = Some (true, rb', d) /\
    data_ok rb' /\ length d = 64%nat /\
    load d 0 = Some (to_uint8 (Z.land (expected_id s) 255)) /\
    load d 1 = Some (to_uint8 (Z.land (Z.shiftr (expected_id s) 8) 255)) /\
    load d 2 = Some (to_uint8 (variable_size (expected_id s))) /\
    holds rb' (variable_messages (expected_id s + 1)
                 (Z.to_nat (msg_id s - (expected_id s + 1)))).
Proof.
  intros [Hd Hpd Hcd [He Hm] Hprod Hcons Hq Hps Hcs] Hlt.
  replace (Z.to_nat (msg_id s - expected_id s))
    with (S (Z.to_nat (msg_id s - (expected_id s + 1)))) in Hq by lia.
  cbn [variable_messages] in Hq.
  apply consumer_pop_front; [done..|lia|done].
Qed.

(** The consumer's turn while ids fit the two id bytes.  It cannot go
    wrong; it pops the message whenever one is waiting, finds the id and
    the size it expects, and never returns 1. *)
Lemma consumer_turn (num : Z) (s : spsc_state) :
  0 <= num <= 65536 -> spsc_inv num s ->
  exists s',
    consumer_variable_size_step num s = Some s' /\
    spsc_inv num s' /\
    msg_id s' = msg_id s /\ prod_status s' = prod_status s /\
    spsc_left num s' <= spsc_left num s /\
    (cons_status s = Running ->
     expected_id s < msg_id s \/ expected_id s = num ->
     spsc_left num s' < spsc_left num s).
Proof.
  intros Hnum Hinv.
  pose proof Hinv as [Hd Hpd Hcd [He Hm] Hprod Hcons Hq Hps Hcs].
  unfold consumer_variable_size_step, spsc_left.
  destruct (cons_status s) as [|v] eqn:Hst.
  2:{ exists s. rewrite ?Hst. split; [done|]. split; [done|].
      repeat split; (done || lia). }
  destruct (Z.ltb_spec (expected_id s) num) as [Hlt|Hge].
  2:{ eexists. split; [done|]. simpl.
      split; [|repeat split; lia].
      split; simpl; try done; try lia. right. split; [done|lia]. }
  pose proof (variable_size_range (expected_id s) ltac:(lia)) as Hsz.
  destruct (decide (expected_id s < msg_id s)) as [Hwait|Hnone].
  - destruct (consumer_pop num s Hinv Hwait)
      as (rb' & d & Hpop & Hd' & Hdl & H0 & H1 & H2 & Hq').
    rewrite Hpop. simpl. rewrite H0. simpl. rewrite H1. simpl.
    rewrite H2. simpl. rewrite decode_id_encode.
    rewrite (Z.mod_small (expected_id s)) by lia.
    rewrite Z.eqb_refl. simpl. rewrite Z.eqb_refl. simpl.
    assert (size_add (expected_id s) 1 = expected_id s + 1) as Hinc
      by (unfold size_add; apply Z.mod_small; unfold SIZE_BITS; lia).
    eexists. split; [done|]. simpl. rewrite Hinc.
    split; [|repeat split; lia].
    split; simpl; try done; try lia.
    + rewrite Hcons. done.
    + by left.
  - assert (msg_id s = expected_id s) as Heq by lia.
    rewrite ring_pop_fail.
    2:{ destruct Hq as [Hlen _]. rewrite Heq, Z.sub_diag in Hlen.
        simpl in Hlen. rewrite pop_available_mod.
        fold (occupied_bytes (ring s)). lia. }
    simpl. eexists. split; [done|]. simpl.
    split; [by split; simpl; try done; try lia|].
    repeat split; lia.
Qed.

(** ** Every schedule *)

Lemma spsc_step_inv (num : Z) (t : thread) (s : spsc_state) :
  0 <= num <= 65536 -> spsc_inv num s ->
  exists s',
    spsc_step num t s = Some s' /\ spsc_inv num s' /\
    spsc_left num s' <= spsc_left num s.
Proof.
  intros Hnum Hinv. destruct t; simpl.
  - destruct (producer_turn num s) as (s' & Hs & Hi & _ & _ & _ & Hle & _);
      [unfold is_size, SIZE_MAX, SIZE_BITS; lia|done|].
    by exists s'.
  - destruct (consumer_turn num s) as (s' & Hs & Hi & _ & _ & Hle & _);
      [done..|].
    by exists s'.
Qed.

Lemma spsc_run_inv (num : Z) (sched : list thread) :
  forall s : spsc_state,
    0 <= num <= 65536 -> spsc_inv num s ->
    exists s', spsc_run num sched s = Some s' /\ spsc_inv num s'.
Proof.
  induction sched as [|t rest IH]; intros s Hnum Hinv.
  - by exists s.
  - destruct (spsc_step_inv num t s Hnum Hinv) as (s1 & Hs1 & Hi1 & _).
    destruct (IH s1 Hnum Hi1) as (s' & Hs' & Hi').
    exists s'. simpl. rewrite Hs1. simpl. done.
Qed.

Lemma spsc_inv_verdict (num : Z) (s : spsc_state) :
  spsc_inv num s ->
  prod_status s <> Running -> cons_status s <> Running ->
  spsc_verdict num s = 0.
Proof.
  intros [_ _ _ _ Hprod Hcons _ Hps Hcs] Hp Hc.
  destruct Hps as [?|[_ Hm]]; [done|].
  destruct Hcs as [?|[Hst He]]; [done|].
  unfold spsc_verdict. rewrite Hst, Hprod, Hcons, Hm, He, Z.eqb_refl.
  reflexivity.
Qed.



(** The six turns of the schedule above, evaluated: three messages pushed
    (of 4, 5 and 6 bytes), two popped, the third turn of the consumer found
    the buffer empty. *)
Example variable_size_six_turns :
  (fun s => (produced s, consumed s, head (ring s), tail (ring s),
             contents (ring s)))
    <$> spsc_run 5 [Producer; Producer; Consumer; Consumer; Consumer; Producer]
          (spsc_start zero_data (replicate 64 x00) (replicate 64 x00))
  = Some (3, 2, 15, 9, [x02; x00; x06; x05; x06; x07]).
Proof. vm_compute. reflexivity. Qed.

Lemma spsc_left_nonneg (num : Z) (s : spsc_state) :
  spsc_inv num s -> 0 <= spsc_left num s.
Proof.
  intros [_ _ _ [He Hm] _ _ _ _ _]. unfold spsc_left.
  destruct (prod_status s), (cons_status s); lia.
Qed.

Lemma spsc_left_zero (num : Z) (s : spsc_state) :
  spsc_inv num s ->
  spsc_left num s = 0 <->
  prod_status s <> Running /\ cons_status s <> Running.
Proof.
  intros [_ _ _ [He Hm] _ _ _ Hps Hcs]. unfold spsc_left. split.
  - intros Hz. destruct (prod_status s), (cons_status s);
      (split; [done || lia|done || lia]).
  - intros [Hp Hc].
    destruct Hps as [?|[Hp' Hm']]; [done|].
    destruct Hcs as [?|[Hc' He']]; [done|].
    rewrite Hp', Hc'. lia.
Qed.

(** Some thread can always take a useful turn. *)
Lemma spsc_useful_turn (num : Z) (s : spsc_state) :
  0 <= num <= 65536 -> spsc_inv num s -> 0 < spsc_left num s ->
  exists t s',
    spsc_step num t s = Some s' /\ spsc_left num s' < spsc_left num s.
Proof.
  intros Hnum Hinv Hpos.
  assert (is_size num) as Hsize
    by (unfold is_size, SIZE_MAX, SIZE_BITS; lia).
  pose proof Hinv as [_ _ _ [He Hm] _ _ _ Hps Hcs].
  destruct (consumer_turn num s Hnum Hinv)
    as (sc & Hsc & _ & _ & _ & _ & Hc).
  destruct (producer_turn num s Hsize Hinv)
    as (sp & Hsp & _ & _ & _ & _ & _ & Hp).
  destruct (decide (expected_id s < msg_id s)) as [Hwait|Hnone].
  - exists Consumer, sc. split; [done|]. apply Hc; [|by left].
    destruct Hcs as [?|[_ ?]]; [done|lia].
  - destruct (prod_status s) as [|v] eqn:Hpst.
    + exists Producer, sp. split; [done|]. apply Hp; [done|]. left. lia.
    + destruct Hps as [?|[_ Hm']]; [done|].
      destruct (cons_status s) as [|w] eqn:Hcst.
      * exists Consumer, sc. split; [done|]. apply Hc; [done|]. right. lia.
      * exfalso. unfold spsc_left in Hpos. rewrite Hpst, Hcst in Hpos.
        destruct Hcs as [?|[_ He']]; [done|]. lia.
Qed.

(** The two threads cannot block each other.  In every state a schedule
    can reach, with [num_messages <= 65536]: the count of turns still to
    come is 0 exactly when both threads have returned; no turn raises it;
    and while it is positive one of the two threads has a turn that lowers
    it, so the producer is never waiting for room while the consumer is
    waiting for data. *)
Theorem variable_size_threads_progress
    (num : Z) (sched : list thread) (d pd cd : list byte) (s : spsc_state) :
  0 <= num <= 65536 ->
  Z.of_nat (length d) = BUFFER_SIZE ->
  length pd = 64%nat -> length cd = 64%nat ->
  spsc_run num sched (spsc_start d pd cd) = Some s ->
  0 <= spsc_left num s /\
  (spsc_left num s = 0 <->
   prod_status s <> Running /\ cons_status s <> Running) /\
  (forall t, exists s',
      spsc_step num t s = Some s' /\ spsc_left num s' <= spsc_left num s) /\
  (0 < spsc_left num s ->
   exists t s',
     spsc_step num t s = Some s' /\ spsc_left num s' < spsc_left num s).
Proof.
  intros Hnum Hd Hpd Hcd Hrun.
  destruct (spsc_run_inv num sched (spsc_start d pd cd)) as (s' & Hrun' & Hinv);
    [done|by apply spsc_start_inv; [lia|..]|].
  rewrite Hrun in Hrun'. injection Hrun' as <-.
  split; [by apply spsc_left_nonneg|].
  split; [by apply spsc_left_zero|].
  split; [|by apply spsc_useful_turn].
  intros t. destruct (spsc_step_inv num t s Hnum Hinv) as (s' & Hs & _ & Hle).
  by exists s'.
Qed.

Lemma variable_size_threads_progress_witness :
  0 <= spsc_left 5 one_message_state /\
  (spsc_left 5 one_message_state = 0 <->
   prod_status one_message_state <> Running /\
   cons_status one_message_state <> Running) /\
  (forall t, exists s',
      spsc_step 5 t one_message_state = Some s' /\
      spsc_left 5 s' <= spsc_left 5 one_message_state) /\
  (0 < spsc_left 5 one_message_state ->
   exists t s',
     spsc_step 5 t one_message_state = Some s' /\
     spsc_left 5 s' < spsc_left 5 one_message_state).
Proof.
  apply (variable_size_threads_progress 5 [Producer] zero_data
           (replicate 64 x00) (replicate 64 x00)).
  - lia.
  - reflexivity.
  - reflexivity.
  - reflexivity.
  - vm_compute. reflexivity.
Defined.

(** ** A fair schedule *)

Lemma round_robin_turns (num : Z) (s : spsc_state) :
  0 <= num <= 65536 -> spsc_inv num s ->
  exists s',
    spsc_run num [Producer; Consumer] s = Some s' /\ spsc_inv num s' /\
    spsc_left num s' <= spsc_left num s /\
    (0 < spsc_left num s -> spsc_left num s' < spsc_left num s).
Proof.
  intros Hnum Hinv.
  assert (is_size num) as Hsize
    by (unfold is_size, SIZE_MAX, SIZE_BITS; lia).
  pose proof Hinv as [_ _ _ [He Hm] _ _ _ Hps Hcs].
  destruct (producer_turn num s Hsize Hinv)
    as (sp & Hsp & Hip & Hep & Hcp & Hmp & Hlp & Hp).
  destruct (consumer_turn num sp Hnum Hip)
    as (sc & Hsc & Hic & _ & _ & Hlc & Hc).
  exists sc. simpl. rewrite Hsp. simpl. rewrite Hsc. simpl.
  split; [done|]. split; [done|]. split; [lia|].
  intros Hpos.
  destruct (decide (expected_id s < msg_id s)) as [Hwait|Hnone].
  - enough (spsc_left num sc < spsc_left num sp) by lia.
    apply Hc; [|left; lia]. rewrite Hcp.
    destruct Hcs as [?|[_ ?]]; [done|lia].
  - destruct (prod_status s) as [|v] eqn:Hpst.
    + enough (spsc_left num sp < spsc_left num s) by lia.
      apply Hp; [done|]. left. lia.
    + destruct Hps as [?|[_ Hm']]; [done|].
      destruct (cons_status s) as [|w] eqn:Hcst.
      * enough (spsc_left num sc < spsc_left num sp) by lia.
        apply Hc; [by rewrite Hcp|]. right. lia.
      * exfalso. unfold spsc_left in Hpos. rewrite Hpst, Hcst in Hpos.
        destruct Hcs as [?|[_ He']]; [done|]. lia.
Qed.

Lemma round_robin_run (num : Z) (k : nat) :
  forall s : spsc_state,
    0 <= num <= 65536 -> spsc_inv num s ->
    exists s',
      spsc_run num (round_robin k) s = Some s' /\ spsc_inv num s' /\
      spsc_left num s' <= Z.max 0 (spsc_left num s - Z.of_nat k).
Proof.
  induction k as [|k IH]; intros s Hnum Hinv.
  - exists s. pose proof (spsc_left_nonneg num s Hinv). simpl.
    split; [done|]. split; [done|]. lia.
  - destruct (round_robin_turns num s Hnum Hinv)
      as (s1 & Hs1 & Hi1 & Hle & Hlt).
    destruct (IH s1 Hnum Hi1) as (s' & Hs' & Hi' & Hk).
    exists s'. simpl in Hs1 |- *.
    destruct (producer_variable_size_step num s) as [sp|]; [|done].
    simpl in Hs1 |- *.
    destruct (consumer_variable_size_step num sp) as [sc|]; [|done].
    simpl in Hs1 |- *. injection Hs1 as ->.
    split; [done|]. split; [done|].
    pose proof (spsc_left_nonneg num s Hinv).
    pose proof (spsc_left_nonneg num s1 Hi1).
    destruct (decide (0 < spsc_left num s)) as [Hpos|Hz]; [specialize (Hlt Hpos)|];
      lia.
Qed.

(** When the two threads take turns, producer first, the test
    [spsc_variable_size_messages] comes to an end and passes, for every
    [num_messages <= 65536]: after [2 * num_messages + 2] rounds or more
    both threads have returned [NULL], both counters equal [num_messages]
    and the test returns 0. *)
Theorem variable_size_round_robin_passes
    (num : Z) (k : nat) (d pd cd : list byte) :
  0 <= num <= 65536 ->
  Z.of_nat (length d) = BUFFER_SIZE ->
  length pd = 64%nat -> length cd = 64%nat ->
  2 * num + 2 <= Z.of_nat k ->
  exists s,
    spsc_run num (round_robin k) (spsc_start d pd cd) = Some s /\
    prod_status s = Returned 0 /\ cons_status s = Returned 0 /\
    produced s = num /\ consumed s = num /\
    spsc_verdict num s = 0.
Proof.
  intros Hnum Hd Hpd Hcd Hk.
  destruct (round_robin_run num k (spsc_start d pd cd))
    as (s & Hrun & Hinv & Hle);
    [done|by apply spsc_start_inv; [lia|..]|].
  exists s. split; [done|].
  pose proof (spsc_left_nonneg num s Hinv) as Hge.
  assert (spsc_left num s = 0) as Hz
    by (unfold spsc_left in Hle at 2; simpl in Hle; lia).
  apply (spsc_left_zero num s Hinv) in Hz as [Hp Hc].
  pose proof (spsc_inv_verdict num s Hinv Hp Hc) as Hv.
  destruct Hinv as [_ _ _ _ Hprod Hcons _ Hps Hcs].
  destruct Hps as [?|[Hp' Hm']]; [done|].
  destruct Hcs as [?|[Hc' He']]; [done|].
  repeat split; try done; congruence.
Qed.

Lemma variable_size_round_robin_passes_witness :
  exists s,
    spsc_run 100 (round_robin 202)
      (spsc_start zero_data (replicate 64 x00) (replicate 64 x00)) = Some s /\
    prod_status s = Returned 0 /\ cons_status s = Returned 0 /\
    produced s = 100 /\ consumed s = 100 /\
    spsc_verdict 100 s = 0.
Proof.
  apply (variable_size_round_robin_passes 100 202 zero_data
           (replicate 64 x00) (replicate 64 x00)).
  - lia.
  - reflexivity.
  - reflexivity.
  - reflexivity.
  - lia.
Defined.

(** ** The sixteen bits of the id *)

(** The header of a message carries its id in two bytes.  Whatever the
    producer's array held before, the id the consumer decodes from the
    first two bytes of the built message is the id modulo [2 ^ 16], so the
    consumer's id check passes exactly for ids below 65536; the third byte
    is the size the consumer expects. *)
Theorem variable_header_roundtrip (id : Z) (d d' : list byte) (b0 b1 b2 : byte) :
  0 <= id ->
  build_variable_message id d = Some d' ->
  load d' 0 = Some b0 -> load d' 1 = Some b1 -> load d' 2 = Some b2 ->
  decode_id b0 b1 = id mod 65536 /\
  (decode_id b0 b1 = id <-> id < 65536) /\
  byte_val b2 = byte_val (to_uint8 (variable_size id)) /\
  byte_val b2 = variable_size id.
Proof.
  intros Hid Hbuild H0 H1 H2.
  pose proof (variable_size_range id Hid) as Hsz.
  unfold build_variable_message in Hbuild.
  destruct (store d 0 _) as [d0|] eqn:E0; [|done]. simpl in Hbuild.
  destruct (store d0 1 _) as [d1|] eqn:E1; [|done]. simpl in Hbuild.
  destruct (store d1 2 _) as [d2|] eqn:E2; [|done]. simpl in Hbuild.
  pose proof (store_length _ _ _ _ E0) as L0.
  pose proof (store_length _ _ _ _ E1) as L1.
  pose proof (store_length _ _ _ _ E2) as L2.
  assert (variable_size id <= Z.of_nat (length d2)) as Hroom.
  { destruct (decide (variable_size id <= Z.of_nat (length d2))); [done|].
    rewrite fill_payload_short in Hbuild; [done|lia|lia|].
    unfold store in E2. destruct (decide _); [lia|done]. }
  destruct (fill_payload_spec (Z.to_nat (variable_size id - 3)) id 3 d2)
    as (d3 & Hrun & _ & _ & Hfr); [lia..|].
  rewrite Hbuild in Hrun. injection Hrun as <-.
  rewrite Hfr in H0, H1, H2 by lia.
  rewrite (load_store_ne _ _ _ _ _ E2) in H0 by lia.
  rewrite (load_store_ne _ _ _ _ _ E2) in H1 by lia.
  rewrite (load_store_ne _ _ _ _ _ E1) in H0 by lia.
  rewrite (load_store_eq _ _ _ _ E0) in H0.
  rewrite (load_store_eq _ _ _ _ E1) in H1.
  rewrite (load_store_eq _ _ _ _ E2) in H2.
  injection H0 as <-. injection H1 as <-. injection H2 as <-.
  rewrite decode_id_encode, byte_val_to_uint8.
  pose proof (Z.mod_pos_bound id 65536 eq_refl).
  split; [done|]. split; [|split; [done|apply Z.mod_small; lia]].
  split; [lia|]. intros Hlt. apply Z.mod_small. lia.
Qed.

Lemma variable_header_roundtrip_witness :
  decode_id x39 x30 = 12345 mod 65536 /\
  (decode_id x39 x30 = 12345 <-> 12345 < 65536) /\
  byte_val x1b = byte_val (to_uint8 (variable_size 12345)) /\
  byte_val x1b = variable_size 12345.
Proof.
  apply (variable_header_roundtrip 12345 (replicate 64 xff)
           (variable_message 12345 ++ replicate 37 xff)).
  - lia.
  - vm_compute. reflexivity.
  - reflexivity.
  - reflexivity.
  - reflexivity.
Defined.



(** * The fixed-size producer and consumer *)

(** ** The pattern *)

Lemma pattern_message_length (i size : Z) :
  0 <= size -> Z.of_nat (length (Fixed.pattern_message i size)) = size.
Proof.
  intros Hsize. unfold Fixed.pattern_message.
  rewrite length_fmap, length_seq. lia.
Qed.

Lemma pattern_message_lookup (i size : Z) (k : nat) :
  Z.of_nat k < size ->
  Fixed.pattern_message i size !! k
  = Some (to_uint8 (Z.land (size_add i (Z.of_nat k)) 255)).
Proof.
  intros Hk. unfold Fixed.pattern_message.
  rewrite list_lookup_fmap, lookup_seq_lt by lia. reflexivity.
Qed.

(** The producer's fill stays inside its array of [message_size] bytes
    and leaves the pattern there, whatever was there before. *)
Lemma fill_pattern_spec (i size : Z) (d : list byte) :
  0 <= size -> Z.of_nat (length d) = size ->
  Fixed.fill_pattern i size d = Some (Fixed.pattern_message i size).
Proof.
  intros Hsize Hd. unfold Fixed.fill_pattern.
  destruct (fill_payload_spec (Z.to_nat size) i 0 d)
    as (d' & -> & Hl & Hwr & _); [lia..|].
  f_equal. apply list_eq. intros k.
  pose proof (pattern_message_length i size Hsize) as Hpl.
  destruct (decide (Z.of_nat k < size)) as [Hk|Hk].
  - rewrite pattern_message_lookup by done.
    rewrite <- load_lookup. apply Hwr. lia.
  - rewrite !lookup_ge_None_2 by lia. reflexivity.
Qed.

Lemma verify_pattern_true (n : nat) (i : Z) (d : list byte) :
  forall j : Z,
    (forall k, j <= k < j + Z.of_nat n ->
       load d k = Some (to_uint8 (Z.land (size_add i k) 255))) ->
    Fixed.verify_pattern n j i d = Some true.
Proof.
  induction n as [|m IH]; intros j Hd; [done|]. simpl.
  rewrite Hd by lia. simpl. rewrite Z.eqb_refl. simpl.
  apply IH. intros k Hk. apply Hd. lia.
Qed.

Lemma verify_pattern_inv (n : nat) (i : Z) (d : list byte) :
  forall j : Z,
    Fixed.verify_pattern n j i d = Some true ->
    forall k, j <= k < j + Z.of_nat n ->
      load d k = Some (to_uint8 (Z.land (size_add i k) 255)).
Proof.
  induction n as [|m IH]; intros j Hv k Hk; [lia|]. simpl in Hv.
  destruct (load d j) as [b|] eqn:Hb; [|done]. simpl in Hv.
  destruct (Z.eqb_spec (byte_val b)
              (byte_val (to_uint8 (Z.land (size_add i j) 255)))) as [Heq|Hne];
    [|done].
  simpl in Hv. destruct (decide (k = j)) as [->|Hkj].
  - rewrite Hb. f_equal. by apply byte_val_inj.
  - apply (IH (j + 1)); [done|lia].
Qed.

(** The consumer's check passes exactly when the first [message_size]
    bytes of its array are the pattern of the message it expects: what the
    producer wrote is accepted, and any byte that differs is found. *)
Theorem verify_pattern_accepts_exactly (i size : Z) (d : list byte) :
  0 <= size <= Z.of_nat (length d) ->
  Fixed.verify_pattern (Z.to_nat size) 0 i d = Some true <->
  take (Z.to_nat size) d = Fixed.pattern_message i size.
Proof.
  intros Hsize.
  pose proof (pattern_message_length i size ltac:(lia)) as Hpl. split.
  - intros Hv. apply list_eq. intros k.
    destruct (decide (Z.of_nat k < size)) as [Hk|Hk].
    + rewrite lookup_take_lt, pattern_message_lookup by lia.
      rewrite <- load_lookup.
      apply (verify_pattern_inv _ _ _ _ Hv). lia.
    + rewrite lookup_take_ge by lia. symmetry.
      apply lookup_ge_None_2. lia.
  - intros Ht. apply verify_pattern_true. intros k Hk.
    rewrite <- (Z2Nat.id k) by lia. rewrite load_lookup.
    rewrite <- pattern_message_lookup with (size := size) by lia.
    rewrite <- Ht. symmetry. apply lookup_take_lt. lia.
Qed.

Lemma verify_pattern_accepts_exactly_witness :
  Fixed.verify_pattern (Z.to_nat 3) 0 254 [xfe; xff; x00; x77] = Some true <->
  take (Z.to_nat 3) [xfe; xff; x00; x77] = Fixed.pattern_message 254 3.
Proof.
  apply (verify_pattern_accepts_exactly 254 3 [xfe; xff; x00; x77]).
  simpl. lia.
Defined.

(** The check on a corrupted array, evaluated: the second byte differs. *)
Example verify_pattern_finds_corruption :
  Fixed.verify_pattern 3 0 254 [xfe; x00; x00] = Some false.
Proof. vm_compute. reflexivity. Qed.

Lemma pattern_messages_snoc (size : Z) (n : nat) :
  forall i : Z,
    Fixed.pattern_messages i (S n) size
    = Fixed.pattern_messages i n size
      ++ Fixed.pattern_message (i + Z.of_nat n) size.
Proof.
  induction n as [|m IH]; intros i.
  - cbn [Fixed.pattern_messages]. rewrite app_nil_r, Z.add_0_r. reflexivity.
  - change (Fixed.pattern_messages i (S (S m)) size)
      with (Fixed.pattern_message i size
            ++ Fixed.pattern_messages (i + 1) (S m) size).
    rewrite IH. cbn [Fixed.pattern_messages]. rewrite <- app_assoc.
    do 3 f_equal. lia.
Qed.

(** ** One turn of each thread *)

Lemma fixed_start_inv (num size : Z) (d pd cd : list byte) :
  0 <= num -> Z.of_nat (length d) = BUFFER_SIZE ->
  Z.of_nat (length pd) = size -> Z.of_nat (length cd) = size ->
  Fixed.inv num size (Fixed.start d pd cd).
Proof.
  intros Hnum Hd Hpd Hcd. split; simpl; try done; try lia; try by left.
  by apply holds_empty.
Qed.

(** One attempt of the producer's push with the pattern in its array: it
    cannot go wrong, and it succeeds whenever the buffer is empty and the
    message fits the buffer at all. *)
Lemma fixed_producer_attempt (num size : Z) (s : Fixed.state) :
  is_size num -> 0 <= size -> Fixed.inv num size s ->
  Fixed.prod_status s = Running -> Fixed.prod_i s < num ->
  exists s',
    Fixed.producer_attempt size s (Fixed.pattern_message (Fixed.prod_i s) size)
    = Some s' /\
    Fixed.inv num size s' /\
    Fixed.cons_i s' = Fixed.cons_i s /\
    Fixed.cons_status s' = Fixed.cons_status s /\
    Fixed.prod_status s' = Running /\
    (Fixed.prod_i s' = Fixed.prod_i s \/ Fixed.prod_i s' = Fixed.prod_i s + 1) /\
    (Fixed.prod_i s = Fixed.cons_i s -> size <= BUFFER_SIZE - 1 ->
     Fixed.prod_i s' = Fixed.prod_i s + 1).
Proof.
  intros [Hnum0 Hnum] Hsize
    [Hd Hpd Hcd [He Hm] Hprod Hcons Hq Hfl Hps Hcs] Hst Hlt.
  pose proof (pattern_message_length (Fixed.prod_i s) size Hsize) as Hpl.
  unfold Fixed.producer_attempt.
  set (d := Fixed.pattern_message (Fixed.prod_i s) size) in *.
  assert (size_add (Fixed.prod_i s) 1 = Fixed.prod_i s + 1) as Hinc.
  { unfold size_add. apply Z.mod_small. unfold SIZE_MAX in Hnum. lia. }
  destruct (Z.gtb_spec size
              (push_available (head (Fixed.ring s)) (tail (Fixed.ring s))))
    as [Hfull|Hfit].
  - rewrite ring_push_fail by lia. simpl.
    eexists. split; [done|]. simpl. split.
    { split; simpl; try done; try lia; try (by left). }
    repeat split; try lia.
    intros Hempty Hsz. exfalso. destruct Hq as [Hlen _].
    rewrite Hempty, Z.sub_diag in Hlen. simpl in Hlen.
    pose proof (occupied_plus_free (Fixed.ring s)) as Hsum.
    rewrite push_available_mod in Hfull.
    fold (free_bytes (Fixed.ring s)) in Hfull. lia.
  - destruct (ring_push_succeeds (Fixed.ring s) d size) as [rb' Hpush];
      [done|lia|lia|].
    rewrite Hpush. simpl. eexists. split; [done|]. simpl.
    split; [|rewrite Hinc; repeat split; lia].
    split; simpl; try done; try lia.
    + by apply (ring_push_data_ok (Fixed.ring s) rb' d size).
    + by rewrite Hprod.
    + rewrite Hinc.
      replace (Z.to_nat (Fixed.prod_i s + 1 - Fixed.cons_i s))
        with (S (Z.to_nat (Fixed.prod_i s - Fixed.cons_i s))) by lia.
      rewrite pattern_messages_snoc.
      replace (Fixed.cons_i s
               + Z.of_nat (Z.to_nat (Fixed.prod_i s - Fixed.cons_i s)))
        with (Fixed.prod_i s) by lia.
      fold d.
      assert (d = take (Z.to_nat size) d) as Htk
        by (rewrite take_ge; [done|lia]).
      rewrite Htk.
      by apply (holds_push (Fixed.ring s) rb' _ d size).
    + by left.
Qed.

(** The producer's turn. *)
Lemma fixed_producer_turn (num size : Z) (s : Fixed.state) :
  is_size num -> 0 <= size -> Fixed.inv num size s ->
  exists s',
    Fixed.producer_fixed_size_step num size s = Some s' /\
    Fixed.inv num size s' /\
    Fixed.cons_i s' = Fixed.cons_i s /\
    Fixed.cons_status s' = Fixed.cons_status s /\
    Fixed.prod_i s <= Fixed.prod_i s' /\
    Fixed.left num s' <= Fixed.left num s /\
    (Fixed.prod_status s = Running ->
     (Fixed.prod_i s = Fixed.cons_i s /\ size <= BUFFER_SIZE - 1)
     \/ Fixed.prod_i s = num ->
     Fixed.left num s' < Fixed.left num s).
Proof.
  intros Hnum Hsize Hinv.
  pose proof Hinv as [Hd Hpd Hcd [He Hm] Hprod Hcons Hq Hfl Hps Hcs].
  unfold Fixed.producer_fixed_size_step.
  destruct (Fixed.prod_status s) as [|v] eqn:Hst.
  2:{ exists s. unfold Fixed.left. rewrite ?Hst.
      split; [done|]. split; [done|]. repeat split; (done || lia). }
  assert (Fixed.prod_i s < num ->
          exists s',
            Fixed.producer_attempt size s
              (Fixed.pattern_message (Fixed.prod_i s) size) = Some s' /\
            Fixed.inv num size s' /\
            Fixed.cons_i s' = Fixed.cons_i s /\
            Fixed.cons_status s' = Fixed.cons_status s /\
            Fixed.prod_i s <= Fixed.prod_i s' /\
            Fixed.left num s' <= Fixed.left num s /\
            (Running = Running ->
             (Fixed.prod_i s = Fixed.cons_i s /\ size <= BUFFER_SIZE - 1)
             \/ Fixed.prod_i s = num ->
             Fixed.left num s' < Fixed.left num s)) as Hattempt.
  { intros Hlt.
    destruct (fixed_producer_attempt num size s Hnum Hsize Hinv Hst Hlt)
      as (s' & Hs' & Hi' & Hc & Hcst & Hpst & Hstep & Hgo).
    exists s'. split; [done|]. split; [done|].
    unfold Fixed.left. rewrite Hc, Hcst, Hpst, Hst.
    repeat split; lia. }
  destruct (Fixed.prod_filled s) eqn:Hf.
  - destruct (Hfl eq_refl) as (_ & Hlt & ->). by apply Hattempt.
  - destruct (Z.ltb_spec (Fixed.prod_i s) num) as [Hlt|Hge].
    + rewrite fill_pattern_spec by done. simpl. by apply Hattempt.
    + eexists. split; [done|]. unfold Fixed.left. simpl. rewrite Hst.
      split; [|repeat split; lia].
      split; simpl; try done; try lia. right. split; [done|lia].
Qed.

(** A pop of the byte sequence at the front of the buffer. *)
Lemma pop_front
    (rb : ring_buffer_t) (cd msg rest : list byte) (len : Z) :
  data_ok rb -> holds rb (msg ++ rest) ->
  Z.of_nat (length msg) = len -> len <= Z.of_nat (length cd) ->
  exists rb' d,
    ring_pop rb cd len = Some (true, rb', d) /\
    data_ok rb' /\ length d = length cd /\
    take (Z.to_nat len) d = msg /\ holds rb' rest.
Proof.
  intros Hd Hq Hmsg Hcd.
  destruct (ring_pop_succeeds rb cd len) as (rb' & d & Hpop); [done|lia| |].
  { rewrite pop_available_mod. fold (occupied_bytes rb).
    destruct Hq as [Hlen _]. rewrite <- Hlen, length_app. lia. }
  exists rb', d. split; [done|].
  destruct (holds_pop rb rb' _ cd d len Hd ltac:(lia) Hq Hpop)
    as [Htake Hrest].
  rewrite take_app_length' in Htake by lia.
  rewrite drop_app_length' in Hrest by lia.
  destruct (ring_pop_true rb rb' cd d len)
    as (_ & _ & _ & _ & _ & Hl & _); [done|lia|done|].
  split; [by apply (ring_pop_data_ok rb rb' cd d len); [|lia|]|done].
Qed.

Lemma verify_pattern_of_take (i size : Z) (d : list byte) :
  0 <= size <= Z.of_nat (length d) ->
  take (Z.to_nat size) d = Fixed.pattern_message i size ->
  Fixed.verify_pattern (Z.to_nat size) 0 i d = Some true.
Proof.
  intros Hsize Ht. apply verify_pattern_true. intros k Hk.
  rewrite <- (Z2Nat.id k) by lia. rewrite load_lookup.
  rewrite <- pattern_message_lookup with (size := size) by lia.
  rewrite <- Ht. symmetry. apply lookup_take_lt. lia.
Qed.

(** The consumer's turn.  It cannot go wrong; it pops the message whenever
    one is waiting, finds the pattern it expects, and never returns 1. *)
Lemma fixed_consumer_turn (num size : Z) (s : Fixed.state) :
  is_size num -> 1 <= size -> Fixed.inv num size s ->
  exists s',
    Fixed.consumer_fixed_size_step num size s = Some s' /\
    Fixed.inv num size s' /\
    Fixed.prod_i s' = Fixed.prod_i s /\
    Fixed.prod_status s' = Fixed.prod_status s /\
    Fixed.left num s' <= Fixed.left num s /\
    (Fixed.cons_status s = Running ->
     Fixed.cons_i s < Fixed.prod_i s \/ Fixed.cons_i s = num ->
     Fixed.left num s' < Fixed.left num s).
Proof.
  intros [Hnum0 Hnum] Hsize Hinv.
  pose proof Hinv as [Hd Hpd Hcd [He Hm] Hprod Hcons Hq Hfl Hps Hcs].
  unfold Fixed.consumer_fixed_size_step, Fixed.left.
  destruct (Fixed.cons_status s) as [|v] eqn:Hst.
  2:{ exists s. rewrite ?Hst. split; [done|]. split; [done|].
      repeat split; (done || lia). }
  destruct (Z.ltb_spec (Fixed.cons_i s) num) as [Hlt|Hge].
  2:{ eexists. split; [done|]. simpl.
      split; [|repeat split; lia].
      split; simpl; try done; try lia. right. split; [done|lia]. }
  destruct (decide (Fixed.cons_i s < Fixed.prod_i s)) as [Hwait|Hnone].
  - replace (Z.to_nat (Fixed.prod_i s - Fixed.cons_i s))
      with (S (Z.to_nat (Fixed.prod_i s - (Fixed.cons_i s + 1)))) in Hq by lia.
    cbn [Fixed.pattern_messages] in Hq.
    destruct (pop_front (Fixed.ring s) (Fixed.cons_data s) _ _ size Hd Hq)
      as (rb' & d & Hpop & Hd' & Hdl & Htake & Hq');
      [apply pattern_message_length; lia|lia|].
    rewrite Hpop. simpl.
    rewrite (verify_pattern_of_take (Fixed.cons_i s) size d) by (done || lia).
    simpl.
    assert (size_add (Fixed.cons_i s) 1 = Fixed.cons_i s + 1) as Hinc.
    { unfold size_add. apply Z.mod_small. unfold SIZE_MAX in Hnum. lia. }
    eexists. split; [done|]. simpl. rewrite Hinc.
    split; [|repeat split; lia].
    split; simpl; try done; try lia.
    + by rewrite Hcons.
    + by left.
  - assert (Fixed.prod_i s = Fixed.cons_i s) as Heq by lia.
    rewrite ring_pop_fail.
    2:{ destruct Hq as [Hlen _]. rewrite Heq, Z.sub_diag in Hlen.
        simpl in Hlen. rewrite pop_available_mod.
        fold (occupied_bytes (Fixed.ring s)). lia. }
    simpl. eexists. split; [done|]. simpl.
    split; [by split; simpl; try done; try lia|].
    repeat split; lia.
Qed.

(** ** Every schedule *)

Lemma fixed_step_inv (num size : Z) (t : thread) (s : Fixed.state) :
  is_size num -> 1 <= size -> Fixed.inv num size s ->
  exists s',
    Fixed.step num size t s = Some s' /\ Fixed.inv num size s' /\
    Fixed.left num s' <= Fixed.left num s.
Proof.
  intros Hnum Hsize Hinv. destruct t; simpl.
  - destruct (fixed_producer_turn num size s)
      as (s' & Hs & Hi & _ & _ & _ & Hle & _); [done|lia|done|].
    by exists s'.
  - destruct (fixed_consumer_turn num size s)
      as (s' & Hs & Hi & _ & _ & Hle & _); [done..|].
    by exists s'.
Qed.

Lemma fixed_run_inv (num size : Z) (sched : list thread) :
  forall s : Fixed.state,
    is_size num -> 1 <= size -> Fixed.inv num size s ->
    exists s', Fixed.run num size sched s = Some s' /\ Fixed.inv num size s'.
Proof.
  induction sched as [|t rest IH]; intros s Hnum Hsize Hinv.
  - by exists s.
  - destruct (fixed_step_inv num size t s Hnum Hsize Hinv)
      as (s1 & Hs1 & Hi1 & _).
    destruct (IH s1 Hnum Hsize Hi1) as (s' & Hs' & Hi').
    exists s'. simpl. rewrite Hs1. simpl. done.
Qed.

Lemma fixed_inv_verdict (num size : Z) (s : Fixed.state) :
  Fixed.inv num size s ->
  Fixed.prod_status s <> Running -> Fixed.cons_status s <> Running ->
  Fixed.verdict num s = 0.
Proof.
  intros [_ _ _ _ Hprod Hcons _ _ Hps Hcs] Hp Hc.
  destruct Hps as [?|[_ Hm]]; [done|].
  destruct Hcs as [?|[Hst He]]; [done|].
  unfold Fixed.verdict. rewrite Hst, Hprod, Hcons, Hm, He, Z.eqb_refl.
  reflexivity.
Qed.



Lemma fixed_left_nonneg (num size : Z) (s : Fixed.state) :
  Fixed.inv num size s -> 0 <= Fixed.left num s.
Proof.
  intros [_ _ _ [He Hm] _ _ _ _ _ _]. unfold Fixed.left.
  destruct (Fixed.prod_status s), (Fixed.cons_status s); lia.
Qed.

Lemma fixed_left_zero (num size : Z) (s : Fixed.state) :
  Fixed.inv num size s ->
  Fixed.left num s = 0 <->
  Fixed.prod_status s <> Running /\ Fixed.cons_status s <> Running.
Proof.
  intros [_ _ _ [He Hm] _ _ _ _ Hps Hcs]. unfold Fixed.left. split.
  - intros Hz. destruct (Fixed.prod_status s), (Fixed.cons_status s);
      (split; [done || lia|done || lia]).
  - intros [Hp Hc].
    destruct Hps as [?|[Hp' Hm']]; [done|].
    destruct Hcs as [?|[Hc' He']]; [done|].
    rewrite Hp', Hc'. lia.
Qed.

(** A round of the two threads, producer first, lowers the count of turns
    to come while there are any. *)
Lemma fixed_round (num size : Z) (s : Fixed.state) :
  is_size num -> 1 <= size <= BUFFER_SIZE - 1 -> Fixed.inv num size s ->
  exists sp sc,
    Fixed.step num size Producer s = Some sp /\
    Fixed.step num size Consumer sp = Some sc /\
    Fixed.inv num size sc /\
    Fixed.left num sc <= Fixed.left num s /\
    (0 < Fixed.left num s ->
     Fixed.left num sc < Fixed.left num s /\
     (Fixed.left num sp < Fixed.left num s \/
      exists sc', Fixed.step num size Consumer s = Some sc' /\
                  Fixed.left num sc' < Fixed.left num s)).
Proof.
  intros Hnum Hsize Hinv.
  pose proof Hinv as [_ _ _ [He Hm] _ _ _ _ Hps Hcs].
  destruct (fixed_producer_turn num size s Hnum ltac:(lia) Hinv)
    as (sp & Hsp & Hip & Hep & Hcp & Hmp & Hlp & Hp).
  destruct (fixed_consumer_turn num size sp Hnum ltac:(lia) Hip)
    as (sc & Hsc & Hic & _ & _ & Hlc & Hc).
  destruct (fixed_consumer_turn num size s Hnum ltac:(lia) Hinv)
    as (sc' & Hsc' & _ & _ & _ & _ & Hc').
  exists sp, sc. split; [done|]. split; [done|]. split; [done|].
  split; [lia|]. intros Hpos.
  destruct (decide (Fixed.cons_i s < Fixed.prod_i s)) as [Hwait|Hnone].
  - assert (Fixed.cons_status s = Running) as Hrun
      by (destruct Hcs as [?|[_ ?]]; [done|lia]).
    split.
    + enough (Fixed.left num sc < Fixed.left num sp) by lia.
      apply Hc; [by rewrite Hcp|left; lia].
    + right. exists sc'. split; [done|]. apply Hc'; [done|by left].
  - destruct (Fixed.prod_status s) as [|v] eqn:Hpst.
    + assert (Fixed.left num sp < Fixed.left num s)
        by (apply Hp; [done|left; lia]).
      split; [lia|by left].
    + destruct Hps as [?|[_ Hm']]; [done|].
      destruct (Fixed.cons_status s) as [|w] eqn:Hcst.
      * split.
        -- enough (Fixed.left num sc < Fixed.left num sp) by lia.
           apply Hc; [by rewrite Hcp|right; lia].
        -- right. exists sc'. split; [done|]. apply Hc'; [done|right; lia].
      * exfalso. unfold Fixed.left in Hpos. rewrite Hpst, Hcst in Hpos.
        destruct Hcs as [?|[_ He']]; [done|]. lia.
Qed.

(** The two threads cannot block each other when a message fits the
    buffer ([1 <= message_size <= 1023]).  In every state a schedule can
    reach: the count of turns still to come is 0 exactly when both threads
    have returned; no turn raises it; and while it is positive one of the
    two threads has a turn that lowers it. *)
Theorem fixed_size_threads_progress
    (num size : Z) (sched : list thread) (d pd cd : list byte)
    (s : Fixed.state) :
  is_size num -> 1 <= size <= BUFFER_SIZE - 1 ->
  Z.of_nat (length d) = BUFFER_SIZE ->
  Z.of_nat (length pd) = size -> Z.of_nat (length cd) = size ->
  Fixed.run num size sched (Fixed.start d pd cd) = Some s ->
  0 <= Fixed.left num s /\
  (Fixed.left num s = 0 <->
   Fixed.prod_status s <> Running /\ Fixed.cons_status s <> Running) /\
  (forall t, exists s',
      Fixed.step num size t s = Some s' /\
      Fixed.left num s' <= Fixed.left num s) /\
  (0 < Fixed.left num s ->
   exists t s',
     Fixed.step num size t s = Some s' /\
     Fixed.left num s' < Fixed.left num s).
Proof.
  intros Hnum Hsize Hd Hpd Hcd Hrun.
  destruct (fixed_run_inv num size sched (Fixed.start d pd cd))
    as (s' & Hrun' & Hinv);
    [done|lia|by apply fixed_start_inv; [destruct Hnum|..]|].
  rewrite Hrun in Hrun'. injection Hrun' as <-.
  split; [by apply (fixed_left_nonneg num size)|].
  split; [by apply (fixed_left_zero num size)|]. split.
  - intros t.
    destruct (fixed_step_inv num size t s Hnum ltac:(lia) Hinv)
      as (s' & Hs & _ & Hle).
    by exists s'.
  - intros Hpos.
    destruct (fixed_round num size s Hnum Hsize Hinv)
      as (sp & sc & Hsp & _ & _ & _ & Hgo).
    destruct (Hgo Hpos) as [_ [Hlt|(sc' & Hsc' & Hlt)]].
    + by exists Producer, sp.
    + by exists Consumer, sc'.
Qed.

Lemma fixed_size_threads_progress_witness :
  0 <= Fixed.left 4 fixed_sample_state /\
  (Fixed.left 4 fixed_sample_state = 0 <->
   Fixed.prod_status fixed_sample_state <> Running /\
   Fixed.cons_status fixed_sample_state <> Running) /\
  (forall t, exists s',
      Fixed.step 4 8 t fixed_sample_state = Some s' /\
      Fixed.left 4 s' <= Fixed.left 4 fixed_sample_state) /\
  (0 < Fixed.left 4 fixed_sample_state ->
   exists t s',
     Fixed.step 4 8 t fixed_sample_state = Some s' /\
     Fixed.left 4 s' < Fixed.left 4 fixed_sample_state).
Proof.
  apply (fixed_size_threads_progress 4 8 [Producer; Consumer] zero_data
           (replicate 8 x00) (replicate 8 x00)).
  - vm_compute. split; discriminate.
  - unfold BUFFER_SIZE. lia.
  - reflexivity.
  - reflexivity.
  - reflexivity.
  - vm_compute. reflexivity.
Defined.

(** ** A fair schedule *)

Lemma fixed_round_robin_run (num size : Z) (k : nat) :
  forall s : Fixed.state,
    is_size num -> 1 <= size <= BUFFER_SIZE - 1 -> Fixed.inv num size s ->
    exists s',
      Fixed.run num size (round_robin k) s = Some s' /\
      Fixed.inv num size s' /\
      Fixed.left num s' <= Z.max 0 (Fixed.left num s - Z.of_nat k).
Proof.
  induction k as [|k IH]; intros s Hnum Hsize Hinv.
  - exists s. pose proof (fixed_left_nonneg num size s Hinv). simpl.
    split; [done|]. split; [done|]. lia.
  - destruct (fixed_round num size s Hnum Hsize Hinv)
      as (sp & sc & Hsp & Hsc & Hic & Hle & Hlt).
    destruct (IH sc Hnum Hsize Hic) as (s' & Hs' & Hi' & Hk).
    exists s'. cbn [round_robin Fixed.run].
    rewrite Hsp. cbn [mbind option_bind]. rewrite Hsc. cbn [mbind option_bind].
    split; [done|]. split; [done|].
    pose proof (fixed_left_nonneg num size s Hinv).
    pose proof (fixed_left_nonneg num size sc Hic).
    destruct (decide (0 < Fixed.left num s)) as [Hpos|Hz];
      [destruct (Hlt Hpos) as [? _]|]; lia.
Qed.

(** When the two threads take turns, producer first, the fixed-size tests
    come to an end and pass, for every number of messages and every
    message size from 1 to 1023 bytes: after [2 * num_messages + 2] rounds
    or more both threads have returned [NULL], both counters equal
    [num_messages] and the test returns 0. *)
Theorem fixed_size_round_robin_passes
    (num size : Z) (k : nat) (d pd cd : list byte) :
  is_size num -> 1 <= size <= BUFFER_SIZE - 1 ->
  Z.of_nat (length d) = BUFFER_SIZE ->
  Z.of_nat (length pd) = size -> Z.of_nat (length cd) = size ->
  2 * num + 2 <= Z.of_nat k ->
  exists s,
    Fixed.run num size (round_robin k) (Fixed.start d pd cd) = Some s /\
    Fixed.prod_status s = Returned 0 /\ Fixed.cons_status s = Returned 0 /\
    Fixed.produced s = num /\ Fixed.consumed s = num /\
    Fixed.verdict num s = 0.
Proof.
  intros Hnum Hsize Hd Hpd Hcd Hk.
  destruct (fixed_round_robin_run num size k (Fixed.start d pd cd))
    as (s & Hrun & Hinv & Hle);
    [done..|by apply fixed_start_inv; [destruct Hnum|..]|].
  exists s. split; [done|].
  pose proof (fixed_left_nonneg num size s Hinv) as Hge.
  assert (Fixed.left num s = 0) as Hz
    by (unfold Fixed.left in Hle at 2; simpl in Hle; lia).
  apply (fixed_left_zero num size s Hinv) in Hz as [Hp Hc].
  pose proof (fixed_inv_verdict num size s Hinv Hp Hc) as Hv.
  destruct Hinv as [_ _ _ _ Hprod Hcons _ _ Hps Hcs].
  destruct Hps as [?|[Hp' Hm']]; [done|].
  destruct Hcs as [?|[Hc' He']]; [done|].
  repeat split; try done; congruence.
Qed.

Lemma fixed_size_round_robin_passes_witness :
  exists s,
    Fixed.run 50 500 (round_robin 102)
      (Fixed.start zero_data (replicate 500 x00) (replicate 500 x00)) = Some s /\
    Fixed.prod_status s = Returned 0 /\ Fixed.cons_status s = Returned 0 /\
    Fixed.produced s = 50 /\ Fixed.consumed s = 50 /\
    Fixed.verdict 50 s = 0.
Proof.
  apply (fixed_size_round_robin_passes 50 500 102 zero_data
           (replicate 500 x00) (replicate 500 x00)).
  - vm_compute. split; discriminate.
  - unfold BUFFER_SIZE. lia.
  - reflexivity.
  - reflexivity.
  - reflexivity.
  - lia.
Defined.

(** ** A message larger than the buffer *)

(** What holds between the turns when no message can ever be pushed. *)
Lemma fixed_oversized_step
    (num size : Z) (t : thread) (d : list byte) (s : Fixed.state) :
  1 <= num -> BUFFER_SIZE <= size ->
  Fixed.ring s = init_buffer d ->
  Fixed.produced s = 0 -> Fixed.consumed s = 0 ->
  Fixed.prod_i s = 0 -> Fixed.cons_i s = 0 ->
  Fixed.prod_status s = Running -> Fixed.cons_status s = Running ->
  Z.of_nat (length (Fixed.prod_data s)) = size ->
  exists s',
    Fixed.step num size t s = Some s' /\
    Fixed.ring s' = init_buffer d /\
    Fixed.produced s' = 0 /\ Fixed.consumed s' = 0 /\
    Fixed.prod_i s' = 0 /\ Fixed.cons_i s' = 0 /\
    Fixed.prod_status s' = Running /\ Fixed.cons_status s' = Running /\
    Z.of_nat (length (Fixed.prod_data s')) = size.
Proof.
  intros Hnum Hsize Hring Hp Hc Hpi Hci Hps Hcs Hpd.
  pose proof (push_available_range (head (Fixed.ring s)) (tail (Fixed.ring s))).
  pose proof (pop_available_range (head (Fixed.ring s)) (tail (Fixed.ring s))).
  destruct t; simpl.
  - unfold Fixed.producer_fixed_size_step, Fixed.producer_attempt.
    rewrite Hps. destruct (Fixed.prod_filled s).
    + rewrite ring_push_fail by lia. simpl.
      eexists. split; [done|]. simpl. by repeat split.
    + destruct (Z.ltb_spec (Fixed.prod_i s) num); [|lia].
      rewrite fill_pattern_spec by (done || unfold BUFFER_SIZE in *; lia).
      simpl. rewrite ring_push_fail by lia. simpl.
      eexists. split; [done|]. simpl. repeat split; try done.
      apply pattern_message_length. unfold BUFFER_SIZE in *. lia.
  - unfold Fixed.consumer_fixed_size_step. rewrite Hcs.
    destruct (Z.ltb_spec (Fixed.cons_i s) num); [|lia].
    rewrite ring_pop_fail by lia. simpl.
    eexists. split; [done|]. simpl. by repeat split.
Qed.

(** With a message size of 1024 bytes or more and at least one message to
    send, the fixed-size threads never get anywhere, whatever the
    schedule: every push and every pop fails, both counters stay at 0, the
    buffer stays as it was initialised and both threads are still in their
    retry loops.  The test does not fail; it does not end. *)
Theorem fixed_size_oversized_never_ends
    (num size : Z) (sched : list thread) (d pd cd : list byte) :
  1 <= num -> BUFFER_SIZE <= size ->
  Z.of_nat (length pd) = size ->
  exists s,
    Fixed.run num size sched (Fixed.start d pd cd) = Some s /\
    Fixed.ring s = init_buffer d /\
    Fixed.produced s = 0 /\ Fixed.consumed s = 0 /\
    Fixed.prod_status s = Running /\ Fixed.cons_status s = Running.
Proof.
  intros Hnum Hsize Hpd.
  enough (forall s : Fixed.state,
    Fixed.ring s = init_buffer d ->
    Fixed.produced s = 0 -> Fixed.consumed s = 0 ->
    Fixed.prod_i s = 0 -> Fixed.cons_i s = 0 ->
    Fixed.prod_status s = Running -> Fixed.cons_status s = Running ->
    Z.of_nat (length (Fixed.prod_data s)) = size ->
    exists s',
      Fixed.run num size sched s = Some s' /\
      Fixed.ring s' = init_buffer d /\
      Fixed.produced s' = 0 /\ Fixed.consumed s' = 0 /\
      Fixed.prod_status s' = Running /\ Fixed.cons_status s' = Running)
    as Hgen by (by apply Hgen).
  induction sched as [|t rest IH]; intros s Hring Hp Hc Hpi Hci Hps Hcs Hl.
  - exists s. by repeat split.
  - destruct (fixed_oversized_step num size t d s)
      as (s1 & Hs1 & ? & ? & ? & ? & ? & ? & ? & ?); [done..|].
    destruct (IH s1) as (s' & Hs' & Hrest); [done..|].
    exists s'. cbn [Fixed.run]. rewrite Hs1. cbn [mbind option_bind].
    by split.
Qed.

Lemma fixed_size_oversized_never_ends_witness :
  exists s,
    Fixed.run 3 1024 [Producer; Consumer; Consumer; Producer; Producer]
      (Fixed.start zero_data (replicate 1024 x00) (replicate 1024 x00))
    = Some s /\
    Fixed.ring s = init_buffer zero_data /\
    Fixed.produced s = 0 /\ Fixed.consumed s = 0 /\
    Fixed.prod_status s = Running /\ Fixed.cons_status s = Running.
Proof.
  apply (fixed_size_oversized_never_ends 3 1024
           [Producer; Consumer; Consumer; Producer; Producer]
           zero_data (replicate 1024 x00) (replicate 1024 x00)).
  - lia.
  - unfold BUFFER_SIZE. lia.
  - reflexivity.
Defined.

(** * The latency statistics *)

(** [compare_uint64] is a three-way comparison of the two numbers: its
    sign tells their order, it is 0 exactly for equal numbers, and swapping
    the arguments flips the sign.  It compares; it does not subtract the
    numbers, so no difference can overflow the [int] it returns. *)
Theorem compare_uint64_sign (ua ub : Z) :
  (compare_uint64 ua ub < 0 <-> ua < ub) /\
  (compare_uint64 ua ub = 0 <-> ua = ub) /\
  (0 < compare_uint64 ua ub <-> ub < ua) /\
  compare_uint64 ub ua = - compare_uint64 ua ub /\
  -1 <= compare_uint64 ua ub <= 1.
Proof.
  unfold compare_uint64.
  destruct (Z.gtb_spec ua ub), (Z.ltb_spec ua ub),
           (Z.gtb_spec ub ua), (Z.ltb_spec ub ua); simpl; lia.
Qed.

Lemma qsort_le_iff (a b : Z) : qsort_le a b <-> a <= b.
Proof.
  unfold qsort_le, compare_uint64.
  destruct (Z.gtb_spec a b), (Z.ltb_spec a b); simpl; lia.
Qed.

#[global] Instance qsort_le_total : Total qsort_le.
Proof. intros a b. rewrite !qsort_le_iff. lia. Qed.

#[global] Instance qsort_le_trans : Transitive qsort_le.
Proof. intros a b c. rewrite !qsort_le_iff. lia. Qed.

Lemma load64_lookup (a : list Z) (i : nat) : load64 a (Z.of_nat i) = a !! i.
Proof.
  unfold load64. destruct (decide (0 <= Z.of_nat i)); [|lia].
  by rewrite Nat2Z.id.
Qed.

Lemma load64_Some (a : list Z) (i : Z) :
  0 <= i < Z.of_nat (length a) -> exists x, load64 a i = Some x.
Proof.
  intros Hi. unfold load64. destruct (decide (0 <= i)); [|lia].
  destruct (lookup_lt_is_Some_2 a (Z.to_nat i)) as [x Hx]; [lia|]. eauto.
Qed.

(** In a sorted array a smaller index holds a smaller or equal number. *)
Lemma sorted_lookup_le (l : list Z) :
  StronglySorted qsort_le l ->
  forall (i j : nat) (x y : Z),
    (i <= j)%nat -> l !! i = Some x -> l !! j = Some y -> x <= y.
Proof.
  induction 1 as [|a l Hs IH Hall]; intros i j x y Hij Hx Hy; [done|].
  destruct i as [|i], j as [|j]; simpl in Hx, Hy; try lia.
  - injection Hx as <-. injection Hy as <-. lia.
  - injection Hx as <-. apply qsort_le_iff.
    rewrite Forall_forall in Hall. apply Hall.
    eapply list_elem_of_lookup_2, Hy.
  - apply (IH i j); [lia|done..].
Qed.

Lemma sorted_load64_le (l : list Z) (i j x y : Z) :
  StronglySorted qsort_le l -> i <= j ->
  load64 l i = Some x -> load64 l j = Some y -> x <= y.
Proof.
  intros Hs Hij. unfold load64.
  destruct (decide (0 <= i)); [|done]. destruct (decide (0 <= j)); [|lia].
  apply sorted_lookup_le; [done|lia].
Qed.

Lemma latency_loop_spec (recv send : list Z) (n : nat) :
  forall i : Z,
    0 <= i -> i + Z.of_nat n <= Z.of_nat (length recv) ->
    i + Z.of_nat n <= Z.of_nat (length send) ->
    exists l,
      latency_loop n i recv send = Some l /\ length l = n /\
      forall k : nat, (k < n)%nat ->
        exists r s,
          load64 recv (i + Z.of_nat k) = Some r /\
          load64 send (i + Z.of_nat k) = Some s /\
          l !! k = Some ((r - s) mod 2 ^ 64).
Proof.
  induction n as [|m IH]; intros i Hi Hr Hs.
  - exists []. repeat split; try done. intros k Hk. lia.
  - destruct (load64_Some recv i) as [r Hri]; [lia|].
    destruct (load64_Some send i) as [s Hsi]; [lia|].
    destruct (IH (i + 1)) as (l & Hl & Hlen & Hk); [lia..|].
    exists ((r - s) mod 2 ^ 64 :: l). simpl. rewrite Hri, Hsi. simpl.
    rewrite Hl. simpl. split; [done|]. split; [by rewrite Hlen|].
    intros [|k] Hk'.
    + exists r, s. rewrite Z.add_0_r. done.
    + destruct (Hk k) as (r' & s' & Hr' & Hs' & Hlk); [lia|].
      exists r', s'.
      replace (i + Z.of_nat (S k)) with (i + 1 + Z.of_nat k) by lia. done.
Qed.

(** For one sample or more (and fewer than [2 ^ 64 / 999], so that the
    index products do not wrap) every index [bench_latency] reads lies
    inside the sorted array, the six statistics it prints are in order,
    and every single latency lies between the minimum and the maximum
    printed. *)
Theorem bench_latency_report_ordered
    (recv_times send_times : list Z) (num_samples : Z) :
  1 <= num_samples -> num_samples * 999 <= SIZE_MAX ->
  Z.of_nat (length recv_times) = num_samples ->
  Z.of_nat (length send_times) = num_samples ->
  exists r,
    bench_latency_report recv_times send_times num_samples = Some r /\
    lat_min r <= lat_p50 r /\ lat_p50 r <= lat_p90 r /\
    lat_p90 r <= lat_p99 r /\ lat_p99 r <= lat_p999 r /\
    lat_p999 r <= lat_max r /\
    forall (i : nat) (t1 t0 : Z),
      recv_times !! i = Some t1 -> send_times !! i = Some t0 ->
      lat_min r <= (t1 - t0) mod 2 ^ 64 <= lat_max r.
Proof.
  intros Hn Hbig Hrecv Hsend. unfold bench_latency_report.
  destruct (latency_loop_spec recv_times send_times (Z.to_nat num_samples) 0)
    as (l & -> & Hlen & Hl); [lia..|].
  simpl.
  set (sorted := qsort_uint64 l).
  assert (StronglySorted qsort_le sorted) as Hs
    by apply (StronglySorted_merge_sort qsort_le).
  assert (sorted ≡ₚ l) as Hperm by apply (merge_sort_Permutation qsort_le).
  assert (Z.of_nat (length sorted) = num_samples) as Hslen
    by (rewrite (Permutation_length Hperm), Hlen; lia).
  unfold SIZE_MAX, SIZE_BITS in Hbig.
  assert (size_mul num_samples 90 = num_samples * 90) as ->
    by (unfold size_mul, SIZE_BITS; apply Z.mod_small; lia).
  assert (size_mul num_samples 99 = num_samples * 99) as ->
    by (unfold size_mul, SIZE_BITS; apply Z.mod_small; lia).
  assert (size_mul num_samples 999 = num_samples * 999) as ->
    by (unfold size_mul, SIZE_BITS; apply Z.mod_small; lia).
  assert (size_sub num_samples 1 = num_samples - 1) as ->
    by (unfold size_sub, SIZE_BITS; apply Z.mod_small; lia).
  destruct (load64_Some sorted 0) as [v0 H0]; [lia|].
  destruct (load64_Some sorted (num_samples / 2)) as [v50 H50];
    [Z.to_euclidean_division_equations; lia|].
  destruct (load64_Some sorted (num_samples * 90 / 100)) as [v90 H90];
    [Z.to_euclidean_division_equations; lia|].
  destruct (load64_Some sorted (num_samples * 99 / 100)) as [v99 H99];
    [Z.to_euclidean_division_equations; lia|].
  destruct (load64_Some sorted (num_samples * 999 / 1000)) as [v999 H999];
    [Z.to_euclidean_division_equations; lia|].
  destruct (load64_Some sorted (num_samples - 1)) as [vmax Hmax]; [lia|].
  rewrite H0. simpl. rewrite H50. simpl. rewrite H90. simpl.
  rewrite H99. simpl. rewrite H999. simpl. rewrite Hmax. simpl.
  eexists. split; [done|]. simpl.
  split; [apply (sorted_load64_le sorted 0 (num_samples / 2)); try done;
          Z.to_euclidean_division_equations; lia|].
  split; [apply (sorted_load64_le sorted (num_samples / 2)
                   (num_samples * 90 / 100)); try done;
          Z.to_euclidean_division_equations; lia|].
  split; [apply (sorted_load64_le sorted (num_samples * 90 / 100)
                   (num_samples * 99 / 100)); try done;
          Z.to_euclidean_division_equations; lia|].
  split; [apply (sorted_load64_le sorted (num_samples * 99 / 100)
                   (num_samples * 999 / 1000)); try done;
          Z.to_euclidean_division_equations; lia|].
  split; [apply (sorted_load64_le sorted (num_samples * 999 / 1000)
                   (num_samples - 1)); try done;
          Z.to_euclidean_division_equations; lia|].
  intros i t1 t0 Ht1 Ht0.
  assert (i < Z.to_nat num_samples)%nat as Hi
    by (apply lookup_lt_Some in Ht1; lia).
  destruct (Hl i Hi) as (r & s & Hr & Hs' & Hli).
  rewrite Z.add_0_l, load64_lookup in Hr, Hs'.
  rewrite Ht1 in Hr. rewrite Ht0 in Hs'. injection Hr as <-. injection Hs' as <-.
  assert ((t1 - t0) mod 2 ^ 64 ∈ sorted) as Hin
    by (rewrite Hperm; by apply list_elem_of_lookup_2 in Hli).
  apply list_elem_of_lookup_1 in Hin as [j Hj].
  pose proof (lookup_lt_Some _ _ _ Hj) as Hjlt.
  rewrite <- load64_lookup in Hj. split.
  - apply (sorted_load64_le sorted 0 (Z.of_nat j)); (done || lia).
  - apply (sorted_load64_le sorted (Z.of_nat j) (num_samples - 1));
      (done || lia).
Qed.

Lemma bench_latency_report_ordered_witness :
  exists r,
    bench_latency_report [1500; 2300; 3100; 4200] [1000; 2000; 3000; 4000] 4
    = Some r /\
    lat_min r <= lat_p50 r /\ lat_p50 r <= lat_p90 r /\
    lat_p90 r <= lat_p99 r /\ lat_p99 r <= lat_p999 r /\
    lat_p999 r <= lat_max r /\
    forall (i : nat) (t1 t0 : Z),
      [1500; 2300; 3100; 4200] !! i = Some t1 ->
      [1000; 2000; 3000; 4000] !! i = Some t0 ->
      lat_min r <= (t1 - t0) mod 2 ^ 64 <= lat_max r.
Proof.
  apply (bench_latency_report_ordered
           [1500; 2300; 3100; 4200] [1000; 2000; 3000; 4000] 4).
  - lia.
  - vm_compute. discriminate.
  - reflexivity.
  - reflexivity.
Defined.

(** The report for these four samples, and for no sample at all: with
    [num_samples = 0] the first read, [latencies[0]], is outside the
    array. *)
Example bench_latency_report_four :
  bench_latency_report [1500; 2300; 3100; 4200] [1000; 2000; 3000; 4000] 4
  = Some (mk_report 100 300 500 500 500 500).
Proof. vm_compute. reflexivity. Qed.

Example bench_latency_report_none :
  bench_latency_report [] [] 0 = None.
Proof. vm_compute. reflexivity. Qed.
